(** * truffle-compile: the artifact assembly pipeline

    A shallow embedding of [packages/truffle-compile/run.js] and of the two
    versions of the legacy shims ([legacy/shims.js] and its variant with the
    identity [shimBytecode]), followed by the properties of the path
    normaliser, the output selection, the diagnostics gate, the link-reference
    resolver, the ABI ordering and the legacy shim.

    JavaScript strings are sequences of code units; they are embedded as
    [string], one [ascii] per code unit, which covers hex bytecode, Solidity
    identifiers and the separators the code looks for.  Numbers that the code
    uses as offsets are embedded as [Z]. *)

From Stdlib Require Import ZArith Lia Ascii String Sorted Permutation.
From stdpp Require Import base decidable option list gmap strings sorting.

Local Open Scope Z_scope.
Local Open Scope nat_scope.

(** ** JavaScript preliminaries *)

(** The exceptions the embedded code can raise. [CompileError] carries the
    message handed to [new CompileError(errors)]. *)
Inductive Exn : Type :=
  | TypeError
  | ReferenceError
  | CompileError (message : string).

(** A computation that returns or throws. *)
Inductive result (A : Type) : Type :=
  | Ok (a : A)
  | Throw (e : Exn).
Arguments Ok {A} a.
Arguments Throw {A} e.

#[global] Instance result_ret : MRet result := fun _ a => Ok a.
#[global] Instance result_bind : MBind result := fun _ _ k r =>
  match r with
  | Ok a => k a
  | Throw e => Throw e
  end.

Module JsString.

(** [s.replace(/c/g, d)] for a one-character pattern: every occurrence. *)
Fixpoint replaceAll (c d : ascii) (s : string) : string :=
  match s with
  | EmptyString => EmptyString
  | String a s' =>
      String (if Ascii.eqb a c then d else a) (replaceAll c d s')
  end.

(** [s.replace(c, "")] for a one-character string pattern: only the first
    occurrence is removed. *)
Fixpoint removeFirst (c : ascii) (s : string) : string :=
  match s with
  | EmptyString => EmptyString
  | String a s' => if Ascii.eqb a c then s' else String a (removeFirst c s')
  end.

(** An index argument of [substring]: NaN is not modelled, a negative
    number counts as 0 and a number past the end as the length. *)
Definition clamp (len : nat) (i : Z) : nat := Nat.min (Z.to_nat i) len.

(** [s.substring(a, b)]: both indices are clamped to the string and swapped
    when [a > b]. *)
Definition substring2 (s : string) (a b : Z) : string :=
  let len := String.length s in
  let a' := clamp len a in
  let b' := clamp len b in
  String.substring (Nat.min a' b') (Nat.max a' b' - Nat.min a' b') s.

(** [s.substring(a)]: from the clamped index to the end. *)
Definition substring1 (s : string) (a : Z) : string :=
  let len := String.length s in
  String.substring (clamp len a) (len - clamp len a) s.

(** [s.slice(0, e)]: a negative [e] counts from the end of the string. *)
Definition slice0 (s : string) (e : Z) : string :=
  let len := String.length s in
  let e' := if (e <? 0)%Z then Z.to_nat (Z.max (Z.of_nat len + e) 0)
            else Nat.min (Z.to_nat e) len in
  String.substring 0 e' s.

(** [s.includes(sub)] *)
Definition includes (s sub : string) : bool :=
  match String.index 0 sub s with
  | Some _ => true
  | None => false
  end.

(** [xs.join()]: the default separator is a comma, and an element that is
    [undefined] contributes the empty string. *)
Definition join (xs : list (option string)) : string :=
  String.concat "," (map (default EmptyString) xs).

(** The loop [while (s.length < w) { s += "_"; }]. It runs [w - s.length]
    times, which is the fuel of [padLoop]. *)
Fixpoint padLoop (fuel : nat) (s : string) : string :=
  match fuel with
  | O => s
  | S fuel' => padLoop fuel' (s +:+ "_")
  end.

Definition padUnderscores (w : Z) (s : string) : string :=
  padLoop (Z.to_nat (w - Z.of_nat (String.length s))) s.

End JsString.

(** Plain objects used as maps: the own enumerable properties, as a finite
    map from property names. *)
Module JsObject.

(** The property name a value is converted to when it is used as a key:
    [undefined] becomes the string "undefined". *)
Definition propertyKey (name : option string) : string :=
  default "undefined" name.

(** [Object.assign({}, a, b)]: the properties of [a], overwritten by those of
    [b]. The copy stores through assignment, so a source property called
    [__proto__] reaches the setter of [Object.prototype] and never becomes an
    own property of the result. *)
Definition assign {V : Type} (a b : gmap string V) : gmap string V :=
  delete "__proto__" (b ∪ a).

(** The properties every plain object inherits from [Object.prototype]. *)
Definition objectPrototypeKeys : list string :=
  [ "constructor"; "__defineGetter__"; "__defineSetter__"; "hasOwnProperty";
    "__lookupGetter__"; "__lookupSetter__"; "isPrototypeOf";
    "propertyIsEnumerable"; "toString"; "valueOf"; "__proto__";
    "toLocaleString" ].

(** What [o[k]] evaluates to: an own property, a value found on
    [Object.prototype] (a function or an object, never a number), or
    [undefined], which is [None]. *)
Inductive Property (V : Type) : Type :=
  | Own (v : V)
  | Inherited.
Arguments Own {V} v.
Arguments Inherited {V}.

Definition get {V : Type} (o : gmap string V) (k : string) : option (Property V) :=
  match o !! k with
  | Some v => Some (Own v)
  | None => if decide (k ∈ objectPrototypeKeys) then Some Inherited else None
  end.

(** An object whose keys are to be listed: its entries in the order of
    [Object.entries], or [None] for [undefined]. [Object.values(undefined)]
    raises a TypeError. *)
Definition values {V : Type} (o : option (list (string * V))) : result (list V) :=
  match o with
  | Some entries => Ok (map snd entries)
  | None => Throw TypeError
  end.

End JsObject.

(** ** run.js *)

Module Run.

(** *** getPortableSourcePath *)

Definition getPortableSourcePath (sourcePath : string) : string :=
  (* Turn all backslashes into forward slashes *)
  let replacement := JsString.replaceAll "\" "/" sourcePath in
  (* Turn G:/.../ into /G/.../ for Windows *)
  if (2 <=? String.length replacement)
     && bool_decide (String.get 1 replacement = Some ":"%char)
  then JsString.removeFirst ":" ("/" +:+ replacement)
  else replacement.

(** *** prepareOutputSelection *)

(** A selector set: the outputs asked for under each contract key, where the
    key [""] stands for the file itself and ["*"] for every contract. *)
Definition Selectors : Type := list (string * list string).

Definition defaultSelectors : Selectors :=
  [ (EmptyString, ["legacyAST"; "ast"]);
    ("*", ["abi";
           "metadata";
           "evm.bytecode.object";
           "evm.bytecode.sourceMap";
           "evm.deployedBytecode.object";
           "evm.deployedBytecode.sourceMap";
           "userdoc";
           "devdoc"]) ].

(** If targets are specified, specify output selectors for each individually.
    Otherwise, just use the ["*"] selector. A [targets] property that is
    [undefined] takes the default [[]]. *)
Definition prepareOutputSelection (targets : option (list string))
  : gmap string Selectors :=
  let targets := default [] targets in
  if decide (length targets = 0)
  then {[ "*" := defaultSelectors ]}
  else foldl JsObject.assign ∅
         (map (fun target => {[ target := defaultSelectors ]}) targets).

(** *** detectErrors and the diagnostics gate of run *)

Record Diagnostic : Type := {
  severity : string;
  formattedMessage : option string
}.

(** The options the embedded code reads: [options.strict], [options.quiet] and
    [options.compilers.solc.version]. *)
Record Options : Type := {
  strict : bool;
  quiet : bool;
  solcVersion : option string
}.

(** [errors.match(/pragma solidity[^;]*/gm)[0]]: the leftmost occurrence of
    the literal, extended over every following character that is not a
    semicolon; [None] is the [null] of a failed match. *)
Fixpoint upToSemicolon (s : string) : string :=
  match s with
  | EmptyString => EmptyString
  | String a s' => if Ascii.eqb a ";" then EmptyString else String a (upToSemicolon s')
  end.

Definition pragmaLiteral : string := "pragma solidity".

Definition matchPragma (errors : string) : option string :=
  match String.index 0 pragmaLiteral errors with
  | None => None
  | Some i =>
      let after := i + String.length pragmaLiteral in
      Some (pragmaLiteral +:+
            upToSemicolon (String.substring after (String.length errors - after) errors))
  end.

(** A string in a boolean position: only the empty string is falsy;
    [undefined] is falsy too. *)
Definition truthy (v : option string) : option string :=
  match v with
  | Some s => if decide (s = EmptyString) then None else Some s
  | None => None
  end.

Definition dquote : string := String "034"%char EmptyString.

Section DetectErrors.

(** [OS.EOL], which depends on the platform. *)
Variable EOL : string.

Definition versionNote (configSolcVer contractSolcVer : string) : string :=
  String.concat EmptyString
    [ EOL;
      "Error: Truffle is currently using solc " +:+ configSolcVer +:+ ", ";
      "but one or more of your contracts specify " +:+ dquote +:+ contractSolcVer
         +:+ dquote +:+ ".";
      EOL;
      "Please update your truffle config or pragma statement(s).";
      EOL;
      "(See https://truffleframework.com/docs/truffle/reference/configuration#compiler-configuration ";
      "for information on";
      EOL;
      "configuring Truffle to use a specific solc compiler version.)" ].

(** Extract errors/warnings from compiler output based on strict mode
    setting. Returns the pair [(warnings, errors)]. The identifier [solc] is
    bound nowhere in the scope of [detectErrors], so reaching the right
    operand of [||] raises a ReferenceError. *)
Definition detectErrors (outputErrors : option (list Diagnostic)) (options : Options)
  : result (string * string) :=
  let outputErrors := default [] outputErrors in
  let rawErrors :=
    if strict options then outputErrors
    else filter (fun d => severity d <> "warning") outputErrors in
  let rawWarnings :=
    if strict options then [] (* none of those in strict mode *)
    else filter (fun d => severity d = "warning") outputErrors in
  (* extract messages *)
  let errors := JsString.join (map formattedMessage rawErrors) in
  let warnings := JsString.join (map formattedMessage rawWarnings) in
  if JsString.includes errors "requires different compiler version" then
    contractSolcVer ← match matchPragma errors with
                       | Some m => Ok m
                       | None => Throw TypeError
                       end;
    configSolcVer ← match truthy (solcVersion options) with
                     | Some v => Ok v
                     | None => Throw ReferenceError
                     end;
    Ok (warnings, errors +:+ versionNote configSolcVer contractSolcVer)
  else Ok (warnings, errors).

(** The steps of [run] between the compiler call and the success case: the
    lines written to [options.logger.log], in order, and whether the run goes
    on ([Ok]) or is aborted. *)
Definition runDiagnostics (outputErrors : option (list Diagnostic)) (options : Options)
  : list string * result unit :=
  match detectErrors outputErrors options with
  | Throw e => ([], Throw e)
  | Ok (warnings, errors) =>
      let logged :=
        if (0 <? String.length warnings) && negb (quiet options)
        then [EOL +:+ "    > compilation warnings encountered:" +:+ EOL; warnings]
        else [] in
      if 0 <? String.length errors
      then (logged ++ (if negb (quiet options) then [EmptyString] else []),
            Throw (CompileError errors))
      else (logged, Ok tt)
  end.

End DetectErrors.

(** *** orderABI *)

(** An ABI entry: only [name] is read; [type] and the remaining fields travel
    with the entry. An entry without a name (a constructor, a fallback) has
    [abiName = None]. *)
Record AbiEntry : Type := {
  abiType : string;
  abiName : option string;
  abiRest : string
}.

#[global] Instance AbiEntry_eq_dec : EqDecision AbiEntry.
Proof. solve_decision. Defined.

(** A member of a contract definition, and a top-level node of a source
    unit; [nodes = None] is a node without a [nodes] property. *)
Record MemberNode : Type := {
  memberNodeType : string;
  memberName : option string
}.

Record AstNode : Type := {
  nodeType : string;
  name : option string;
  nodes : option (list MemberNode)
}.

Record Ast : Type := { astNodes : list AstNode }.

(** Put function names in a hash with their order, lowest first. *)
Definition functionIndexesOf (orderedFunctionNames : list (option string))
  : gmap string nat :=
  foldl JsObject.assign ∅
    (imap (fun index functionName => {[ JsObject.propertyKey functionName := index ]})
          orderedFunctionNames).

(** [functionIndexes[a] - functionIndexes[b]] as the sort reads it: the
    difference of two numbers, or NaN when an operand is not a number, which
    the sort takes for [+0]. *)
Definition compareIndexes (functionIndexes : gmap string nat) (a b : AbiEntry) : Z :=
  match JsObject.get functionIndexes (JsObject.propertyKey (abiName a)),
        JsObject.get functionIndexes (JsObject.propertyKey (abiName b)) with
  | Some (JsObject.Own i), Some (JsObject.Own j) => Z.of_nat i - Z.of_nat j
  | _, _ => 0
  end.

Definition comesBefore (functionIndexes : gmap string nat) : relation AbiEntry :=
  fun a b => (compareIndexes functionIndexes a b <= 0)%Z.

#[global] Instance comesBefore_dec functionIndexes a b :
  Decision (comesBefore functionIndexes a b).
Proof. unfold comesBefore. apply _. Defined.

(** [xs.sort(compare)] keeps [a] in front of [b] when the comparator is not
    positive; insertion from the right keeps equal entries in their order. *)
Fixpoint sortInsert {A : Type} (R : relation A) `{forall x y, Decision (R x y)}
    (x : A) (l : list A) : list A :=
  match l with
  | [] => [x]
  | y :: l' => if decide (R x y) then x :: y :: l' else y :: sortInsert R x l'
  end.

Definition sortBy {A : Type} (R : relation A) `{forall x y, Decision (R x y)}
    (l : list A) : list A :=
  foldr (sortInsert R) [] l.

Definition orderABI (abi : list AbiEntry) (contractName : string) (ast : Ast)
  : list AbiEntry :=
  (* AST can have multiple contract definitions, make sure we have the
     one that matches our contract *)
  let contractDefinition :=
    head (filter (fun n => nodeType n = "ContractDefinition" /\ name n = Some contractName)
                 (astNodes ast)) in
  match contractDefinition with
  | None => abi
  | Some definition =>
      match nodes definition with
      | None => abi
      | Some members =>
          (* Find all function definitions *)
          let orderedFunctionNames :=
            map memberName
                (filter (fun m => memberNodeType m = "FunctionDefinition") members) in
          let functionIndexes := functionIndexesOf orderedFunctionNames in
          let lookup (e : AbiEntry) :=
            JsObject.get functionIndexes (JsObject.propertyKey (abiName e)) in
          (* Construct new ABI with functions at the end in source order *)
          filter (fun e => lookup e = None) abi
          ++ sortBy (comesBefore functionIndexes)
                    (filter (fun e => lookup e <> None) abi)
      end
  end.

(** *** replaceAllLinkReferences *)

(** A reference as the compiler reports it: [start] and [length] in bytes. *)
Module LinkReference.
Record t : Type := {
  start : Z;
  length : Z
}.
End LinkReference.

(** The references of one file, by library name, and of all files, by file
    path; both in the order in which [Object.entries] lists the keys. *)
Definition FileLinks : Type := list (string * list LinkReference.t).
Definition LinkReferences : Type := list (string * FileLinks).

Definition replaceLinkReferences (bytecode : string)
    (linkReferences : list LinkReference.t) (libraryName : string) : string :=
  let linkId := JsString.padUnderscores 40 ("__" +:+ libraryName) in
  foldl (fun bytecode ref =>
           (* ref.start is a byte offset. Convert it to character offset. *)
           let start := (LinkReference.start ref * 2)%Z in
           JsString.substring2 bytecode 0 start +:+ linkId
             +:+ JsString.substring1 bytecode (start + 40))
        bytecode linkReferences.

(** [linkReferences = None] is a bytecode object without the property. *)
Definition replaceAllLinkReferences (bytecode : string)
    (linkReferences : option LinkReferences) : result string :=
  allFileLinks ← JsObject.values linkReferences;
  (* convert to flat list *)
  let libraryLinkReferences : list (string * list LinkReference.t) :=
    foldl (fun a b => a ++ b) []
          (map (fun fileLinks : FileLinks =>
                  map (fun '(libraryName, links) => (libraryName, links)) fileLinks)
               allFileLinks) in
  let unprefixed :=
    foldl (fun bytecode '(libraryName, links) =>
             replaceLinkReferences bytecode links libraryName)
          bytecode libraryLinkReferences in
  Ok ("0x" +:+ unprefixed).

(** *** collectSources, prepareSources and prepareCompilerInput *)

(** The three collections that [collectSources] returns. *)
Record Collected : Type := {
  sources : gmap string string;
  targets : list string;
  originalSourcePaths : gmap string string
}.

(** Collects sources, targets into collections with OS-independent paths,
    along with a reverse mapping to the original path. [originalSources] is
    the list of [Object.entries] of the object of sources; an
    [originalTargets] that is [undefined] takes the default [[]]. *)
Definition collectSources (originalSources : list (string * string))
    (originalTargets : option (list string)) : Collected :=
  let originalTargets := default [] originalTargets in
  let mappedResults :=
    map (fun '(originalSourcePath, contents, sourcePath) =>
           {| sources := {[ sourcePath := contents ]};
              (* include transformed form as target if original is a target *)
              targets := if decide (originalSourcePath ∈ originalTargets)
                         then [sourcePath] else [];
              originalSourcePaths := {[ sourcePath := originalSourcePath ]} |})
        (map (fun '(originalSourcePath, contents) =>
                (originalSourcePath, contents,
                 getPortableSourcePath originalSourcePath))
             originalSources) in
  let defaultAccumulator :=
    {| sources := ∅; targets := []; originalSourcePaths := ∅ |} in
  foldl (fun accumulator result =>
           {| sources := JsObject.assign (sources accumulator) (sources result);
              targets := targets accumulator ++ targets result;
              originalSourcePaths :=
                JsObject.assign (originalSourcePaths accumulator)
                                (originalSourcePaths result) |})
        defaultAccumulator mappedResults.

(** The value of a source in the compiler input: [{ content }]. *)
Record SourceInput : Type := { content : string }.

(** [Object.entries(sources)] lists the properties in some order; the merged
    result does not depend on it, the keys being distinct. The map holds the
    own properties of the result: a key [__proto__] becomes none. *)
Definition prepareSources (sources : gmap string string) : gmap string SourceInput :=
  foldl JsObject.assign ∅
        (map (fun '(sourcePath, content) => {[ sourcePath := {| content := content |} ]})
             (map_to_list sources)).

(** A value that [run.js] passes on without reading it, in serialised
    form. *)
Definition Passed : Type := string.

(** [options.compilers.solc.settings], of which two properties are read, and
    the settings of the compiler input. *)
Record SolcSettings : Type := {
  evmVersion : Passed;
  optimizer : Passed
}.

Record InputSettings : Type := {
  inputEvmVersion : Passed;
  inputOptimizer : Passed;
  outputSelection : gmap string Selectors
}.

Record CompilerInput : Type := {
  language : string;
  inputSources : gmap string SourceInput;
  inputSettings : InputSettings
}.

Definition prepareCompilerInput (sources : gmap string string)
    (targets : list string) (settings : SolcSettings) : CompilerInput :=
  {| language := "Solidity";
     inputSources := prepareSources sources;
     inputSettings :=
       {| inputEvmVersion := evmVersion settings;
          inputOptimizer := optimizer settings;
          outputSelection := prepareOutputSelection (Some targets) |} |}.

(** *** The compiler output *)

Module Output.

(** [evm.bytecode] and [evm.deployedBytecode]. The output selection asks for
    [object] and [sourceMap]; [linkReferences] is [None] when the compiler
    leaves the property out. *)
Record EvmBytecode : Type := {
  sourceMap : Passed;
  linkReferences : option LinkReferences;
  object : string
}.

(** The [evm] object of a contract: its two bytecodes, either of which can
    be missing, and the number of its other keys. *)
Record Evm : Type := {
  bytecode : option EvmBytecode;
  deployedBytecode : option EvmBytecode;
  otherKeys : nat
}.

Record ContractOutput : Type := {
  abi : list AbiEntry;
  metadata : Passed;
  devdoc : Passed;
  userdoc : Passed;
  evm : option Evm
}.

Record SourceOutput : Type := {
  id : nat;
  ast : option Ast;
  legacyAST : Passed
}.

(** The parsed output of the compiler; objects are the lists of their
    entries, in the order of [Object.entries], and a property that the
    compiler leaves out is [None]. *)
Record t : Type := {
  sources : option (list (string * SourceOutput));
  contracts : option (list (string * list (string * ContractOutput)));
  errors : option (list Diagnostic)
}.

End Output.

(** [Object.entries(o)]: a TypeError when [o] is [undefined]. *)
Definition objectEntries {V : Type} (o : option (list (string * V)))
  : result (list (string * V)) :=
  match o with
  | Some entries => Ok entries
  | None => Throw TypeError
  end.

(** [o[k]] for an object given by its entries: the last entry under the key
    is its own property, and a key that is no own property can still be found
    on [Object.prototype]. *)
Definition getEntry {V : Type} (entries : list (string * V)) (k : string)
  : option (JsObject.Property V) :=
  match foldl (fun found entry => if decide (entry.1 = k) then Some entry.2 else found)
              None entries with
  | Some v => Some (JsObject.Own v)
  | None => if decide (k ∈ JsObject.objectPrototypeKeys)
            then Some JsObject.Inherited else None
  end.

(** *** processSources *)

(** [files[id] = value] on an array: an index past the end extends the
    array, leaving holes, which read as [undefined]. A slot that holds [None]
    reads as [undefined]. *)
Definition arraySet {V : Type} (files : list (option V)) (index : nat) (value : option V)
  : list (option V) :=
  if decide (index < List.length files) then <[ index := value ]> files
  else files ++ replicate (index - List.length files) None ++ [value].

(** Aggregate list of sources based on reported source index. Returns list
    transformed to use original source paths. *)
Definition processSources (compilerOutput : Output.t)
    (originalSourcePaths : gmap string string)
  : result (list (option (JsObject.Property string))) :=
  entries ← objectEntries (Output.sources compilerOutput);
  Ok (foldl (fun files '(sourcePath, source) =>
               arraySet files (Output.id source)
                        (JsObject.get originalSourcePaths sourcePath))
            [] entries).

(** *** processContracts *)

(** The source that travels with a contract through [processContracts]. *)
Record ContractSource : Type := {
  sourceAst : option Ast;
  sourceLegacyAST : option Passed;
  sourceContents : option (JsObject.Property string);
  sourceSourcePath : string
}.

(** The artifact that [processContracts] returns for a contract. [sourcePath]
    and [source] are what the lookups in [originalSourcePaths] and in
    [sources] found. *)
Module ContractArtifact.
Record t : Type := {
  contractName : string;
  abi : list AbiEntry;
  metadata : Passed;
  devdoc : Passed;
  userdoc : Passed;
  sourcePath : option (JsObject.Property string);
  source : option (JsObject.Property string);
  sourceMap : Passed;
  deployedSourceMap : Passed;
  ast : Ast;
  legacyAST : option Passed;
  bytecode : string;
  deployedBytecode : string;
  compilerName : string;
  compilerVersion : string
}.
End ContractArtifact.

(** [compilerOutput.sources[sourcePath].ast] and [.legacyAST]: reading a
    property of [undefined] throws, be it the sources or the source; a value
    inherited from [Object.prototype] has neither property. *)
Definition sourceOf (compilerOutput : Output.t) (sources : gmap string string)
    (sourcePath : string) : result ContractSource :=
  entries ← objectEntries (Output.sources compilerOutput);
  match getEntry entries sourcePath with
  | None => Throw TypeError
  | Some found =>
      Ok {| sourceAst := match found with
                         | JsObject.Own source => Output.ast source
                         | JsObject.Inherited => None
                         end;
            sourceLegacyAST := match found with
                               | JsObject.Own source => Some (Output.legacyAST source)
                               | JsObject.Inherited => None
                               end;
            sourceContents := JsObject.get sources sourcePath;
            sourceSourcePath := sourcePath |}
  end.

(** [Object.keys(evm).length > 0]; [Object.keys(undefined)] throws. *)
Definition hasEvmOutput (contract : Output.ContractOutput) : result bool :=
  match Output.evm contract with
  | None => Throw TypeError
  | Some evm =>
      Ok (bool_decide
            (0 < (match Output.bytecode evm with Some _ => 1 | None => 0 end)
                 + (match Output.deployedBytecode evm with Some _ => 1 | None => 0 end)
                 + Output.otherKeys evm))
  end.

(** [xs.filter(test)] for a test that may throw. *)
Fixpoint filterM {A : Type} (test : A -> result bool) (xs : list A) : result (list A) :=
  match xs with
  | [] => Ok []
  | x :: xs' =>
      keep ← test x;
      rest ← filterM test xs';
      Ok (if keep : bool then x :: rest else rest)
  end.

(** convert to output format. Destructuring [evm.bytecode] and
    [evm.deployedBytecode] throws when either is missing, and [orderABI]
    throws on an AST that is [undefined]. *)
Definition toArtifact (originalSourcePaths : gmap string string) (solcVersion : string)
    (entry : string * Output.ContractOutput * ContractSource)
  : result ContractArtifact.t :=
  let '(contractName, contract, source) := entry in
  evm ← match Output.evm contract with
         | Some evm => Ok evm
         | None => Throw TypeError
         end;
  creation ← match Output.bytecode evm with
              | Some creation => Ok creation
              | None => Throw TypeError
              end;
  deployed ← match Output.deployedBytecode evm with
              | Some deployed => Ok deployed
              | None => Throw TypeError
              end;
  ast ← match sourceAst source with Some ast => Ok ast | None => Throw TypeError end;
  resolved ← replaceAllLinkReferences (Output.object creation)
                                      (Output.linkReferences creation);
  deployedResolved ← replaceAllLinkReferences (Output.object deployed)
                                              (Output.linkReferences deployed);
  Ok {| ContractArtifact.contractName := contractName;
        ContractArtifact.abi := orderABI (Output.abi contract) contractName ast;
        ContractArtifact.metadata := Output.metadata contract;
        ContractArtifact.devdoc := Output.devdoc contract;
        ContractArtifact.userdoc := Output.userdoc contract;
        ContractArtifact.sourcePath :=
          JsObject.get originalSourcePaths (sourceSourcePath source);
        ContractArtifact.source := sourceContents source;
        ContractArtifact.sourceMap := Output.sourceMap creation;
        ContractArtifact.deployedSourceMap := Output.sourceMap deployed;
        ContractArtifact.ast := ast;
        ContractArtifact.legacyAST := sourceLegacyAST source;
        ContractArtifact.bytecode := resolved;
        ContractArtifact.deployedBytecode := deployedResolved;
        ContractArtifact.compilerName := "solc";
        ContractArtifact.compilerVersion := solcVersion |}.

(** Converts compiler-output contracts into truffle-compile's return format.
    Each stage runs over the whole list before the next one starts. *)
Definition processContracts (compilerOutput : Output.t)
    (sources : gmap string string) (originalSourcePaths : gmap string string)
    (solcVersion : string) : result (list ContractArtifact.t) :=
  entries ← objectEntries (Output.contracts compilerOutput);
  (* map to [[{ source, contractName, contract }]] *)
  nested ← mapM (fun '(sourcePath, sourceContracts) =>
                   mapM (fun '(contractName, contract) =>
                           source ← sourceOf compilerOutput sources sourcePath;
                           Ok (contractName, contract, source))
                        (sourceContracts : list (string * Output.ContractOutput)))
                entries;
  (* and flatten *)
  let flat := foldl (fun a b => a ++ b) [] nested in
  (* All source will have a key, but only the compiled source will have
     the evm output. *)
  compiled ← filterM (fun entry : string * Output.ContractOutput * ContractSource =>
                        hasEvmOutput entry.1.2) flat;
  (* convert to output format *)
  mapM (toArtifact originalSourcePaths solcVersion) compiled.

(** *** run *)

(** The options that [run] reads: those of the diagnostics gate,
    [options.compilationTargets] and [options.compilers.solc.settings]. *)
Record RunOptions : Type := {
  gateOptions : Options;
  compilationTargets : option (list string);
  solcSettings : SolcSettings
}.

(** What [run] returns; [compilerInfo] is [None] for [undefined], and
    otherwise the version of the compiler named "solc". *)
Record RunResult : Type := {
  resultContracts : list ContractArtifact.t;
  resultSourceIndexes : list (option (JsObject.Property string));
  resultCompilerInfo : option (string * string)
}.

Section RunPipeline.

Variable EOL : string.

(** Load solc and perform compilation: the supplier, the compiler and the
    parsing of its output are outside this file. The function returns the
    parsed output and the version of the compiler, or throws. *)
Variable invokeCompiler : CompilerInput -> RunOptions -> result (Output.t * string).

(** The lines logged, in order, and the value returned or the exception
    thrown. [rawSources] is the list of [Object.entries] of the sources. *)
Definition run (rawSources : list (string * string)) (options : RunOptions)
  : list string * result RunResult :=
  if decide (List.length rawSources = 0) then
    ([], Ok {| resultContracts := [];
               resultSourceIndexes := [];
               resultCompilerInfo := None |})
  else
    (* Ensure sources have operating system independent paths *)
    let collected := collectSources rawSources (compilationTargets options) in
    (* construct solc compiler input *)
    let compilerInput :=
      prepareCompilerInput (sources collected) (targets collected)
                           (solcSettings options) in
    (* perform compilation *)
    match invokeCompiler compilerInput options with
    | Throw e => ([], Throw e)
    | Ok (compilerOutput, solcVersion) =>
        (* handle warnings as errors if options.strict
           log if not options.quiet *)
        let '(logged, gate) :=
          runDiagnostics EOL (Output.errors compilerOutput) (gateOptions options) in
        match gate with
        | Throw e => (logged, Throw e)
        | Ok _ =>
            (* success case *)
            (logged,
             sourceIndexes ← processSources compilerOutput
                               (originalSourcePaths collected);
             contracts ← processContracts compilerOutput (sources collected)
                           (originalSourcePaths collected) solcVersion;
             Ok {| resultContracts := contracts;
                   resultSourceIndexes := sourceIndexes;
                   resultCompilerInfo := Some ("solc", solcVersion) |})
        end
    end.

End RunPipeline.

End Run.

(** ** The legacy shims

    [legacy/shims.js] exists in two versions. They share [shimOutput] and
    [shimContract] word for word and differ in [shimBytecode]: one version
    inlines the link references of a bytecode object, the other returns its
    argument. *)

(** A value the shim copies without reading it. *)
Definition Json : Type := string.

(** A link reference of a bytecode object: one name, several offsets. *)
Module ShimLinkReference.
Record t : Type := {
  offsets : list Z;
  length : Z;
  name : string
}.
End ShimLinkReference.

(** What a [bytecode] property can hold: nothing, a hex string, or a
    bytecode object [{ bytes, linkReferences }], either of which may be
    [undefined]. *)
Inductive JsBytecode : Type :=
  | Undefined
  | Hex (hex : string)
  | BytecodeObject (bytes : option string)
                   (linkReferences : option (list ShimLinkReference.t)).

Module Artifact.
Record t : Type := {
  contractName : string;
  sourcePath : Json;
  source : Json;
  sourceMap : Json;
  deployedSourceMap : Json;
  legacyAST : Json;
  ast : Json;
  abi : Json;
  metadata : Json;
  bytecode : JsBytecode;
  deployedBytecode : JsBytecode;
  compiler : Json;
  devdoc : Json;
  userdoc : Json
}.
End Artifact.

Module LegacyArtifact.
Record t : Type := {
  contract_name : string;
  sourcePath : Json;
  source : Json;
  sourceMap : Json;
  deployedSourceMap : Json;
  legacyAST : Json;
  ast : Json;
  abi : Json;
  metadata : Json;
  bytecode : JsBytecode;
  deployedBytecode : JsBytecode;
  unlinked_binary : JsBytecode;
  compiler : Json;
  devdoc : Json;
  userdoc : Json
}.
End LegacyArtifact.

(** The value of [this] inside a method: the exported object when the method
    is called on it, the global object when the function is called without a
    receiver. The files are not in strict mode; there [this] would be
    [undefined], and reading a property of it would raise a TypeError as
    well. *)
Inductive Receiver : Type :=
  | ModuleExports
  | GlobalObject.

(** Calling the value of a property: [undefined] is not a function. *)
Definition callMethod {A B : Type} (method : option (A -> result B)) (x : A) : result B :=
  match method with
  | Some f => f x
  | None => Throw TypeError
  end.

(** [xs.map(callback)] with no [thisArg]: the callback runs without a
    receiver. *)
Definition arrayMap {A B : Type} (callback : option (Receiver -> A -> result B))
    (xs : list A) : result (list B) :=
  match callback with
  | Some f => mapM (f GlobalObject) xs
  | None => Throw TypeError
  end.

Section ShimMethods.

(** The [shimBytecode] method of the exported object. *)
Variable shimBytecode : JsBytecode -> result JsBytecode.

(** [this.shimBytecode]: a property of the exported object, absent from the
    global object. *)
Definition getShimBytecode (this : Receiver)
  : option (JsBytecode -> result JsBytecode) :=
  match this with
  | ModuleExports => Some shimBytecode
  | GlobalObject => None
  end.

Definition shimContract (this : Receiver) (contract : Artifact.t)
  : result LegacyArtifact.t :=
  bytecode' ← callMethod (getShimBytecode this) (Artifact.bytecode contract);
  deployedBytecode' ← callMethod (getShimBytecode this) (Artifact.deployedBytecode contract);
  unlinked_binary' ← callMethod (getShimBytecode this) (Artifact.bytecode contract);
  Ok {| LegacyArtifact.contract_name := Artifact.contractName contract;
        LegacyArtifact.sourcePath := Artifact.sourcePath contract;
        LegacyArtifact.source := Artifact.source contract;
        LegacyArtifact.sourceMap := Artifact.sourceMap contract;
        LegacyArtifact.deployedSourceMap := Artifact.deployedSourceMap contract;
        LegacyArtifact.legacyAST := Artifact.legacyAST contract;
        LegacyArtifact.ast := Artifact.ast contract;
        LegacyArtifact.abi := Artifact.abi contract;
        LegacyArtifact.metadata := Artifact.metadata contract;
        LegacyArtifact.bytecode := bytecode';
        LegacyArtifact.deployedBytecode := deployedBytecode';
        LegacyArtifact.unlinked_binary := unlinked_binary';
        LegacyArtifact.compiler := Artifact.compiler contract;
        LegacyArtifact.devdoc := Artifact.devdoc contract;
        LegacyArtifact.userdoc := Artifact.userdoc contract |}.

(** [this.shimContract] *)
Definition getShimContract (this : Receiver)
  : option (Receiver -> Artifact.t -> result LegacyArtifact.t) :=
  match this with
  | ModuleExports => Some shimContract
  | GlobalObject => None
  end.

Definition shimOutput (this : Receiver)
    (list : list Artifact.t) (sourceIndexes compilerInfo : Json)
  : result (gmap string LegacyArtifact.t * Json * Json) :=
  (* get old format *)
  shimmed ← arrayMap (getShimContract this) list;
  (* get pair *)
  let pairs :=
    map (fun contract => {[ LegacyArtifact.contract_name contract := contract ]})
        shimmed in
  (* merge pairs *)
  let contracts := foldl JsObject.assign ∅ pairs in
  Ok (contracts, sourceIndexes, compilerInfo).

End ShimMethods.

(** *** legacy/shims.js *)

Module LegacyShims.

(** [array.reduce(step, init)] for a step that may throw. *)
Fixpoint reduceM {A B : Type} (step : B -> A -> result B) (xs : list A) (acc : B)
  : result B :=
  match xs with
  | [] => Ok acc
  | x :: xs' => acc' ← step acc x; reduceM step xs' acc'
  end.

(** The reducer that overwrites [bytes] with one link reference. [bytes] is
    [None] when the property is [undefined], on which [substring] cannot be
    called. *)
Definition inlineLinkReference (bytes : option string)
    (reference : Z * string * Z) : result (option string) :=
  let '(offset, name, length) := reference in
  (* length is a byte offset *)
  let characterLength := (length * 2)%Z in
  let linkId :=
    JsString.padUnderscores characterLength
      ("__" +:+ JsString.slice0 name (characterLength - 2)) in
  let start := (offset * 2)%Z in
  match bytes with
  | None => Throw TypeError
  | Some bytes =>
      Ok (Some (JsString.substring2 bytes 0 start +:+ linkId
                  +:+ JsString.substring1 bytes (start + characterLength)))
  end.

(** Destructuring [{ bytes, linkReferences }] fails on [undefined] and finds
    neither property on a string. *)
Definition shimBytecode (bytecode : JsBytecode) : result JsBytecode :=
  '(bytes, linkReferences) ←
      match bytecode with
      | Undefined => Throw TypeError
      | Hex _ => Ok (None, None)
      | BytecodeObject bytes linkReferences => Ok (bytes, linkReferences)
      end;
  let linkReferences := default [] linkReferences in
  (* inline link references - start by flattening the offsets *)
  let flattenedLinkReferences :=
    foldl (fun a b => a ++ b) []
          (map (fun r => map (fun offset => (offset, ShimLinkReference.name r,
                                                ShimLinkReference.length r))
                            (ShimLinkReference.offsets r))
               linkReferences) in
  (* then overwrite bytes with link reference *)
  bytes ← reduceM inlineLinkReference flattenedLinkReferences bytes;
  Ok (Hex ("0x" +:+ default "undefined" bytes)).

Definition shimContract := shimContract shimBytecode.
Definition shimOutput := shimOutput shimBytecode.

End LegacyShims.

(** *** The version of the shims with the identity [shimBytecode] *)

Module Shims.

Definition shimBytecode (bytecode : JsBytecode) : result JsBytecode :=
  Ok bytecode.

Definition shimContract := shimContract shimBytecode.
Definition shimOutput := shimOutput shimBytecode.

End Shims.

(** * Properties *)

Section PathNormalizer.
Import Run.

Implicit Types p r s : string.

Lemma replaceAll_fixed c d s :
  c <> d -> JsString.replaceAll c d (JsString.replaceAll c d s) = JsString.replaceAll c d s.
Proof.
  intros Hcd. induction s as [|a s IH]; simpl; [done|].
  rewrite IH. f_equal.
  destruct (Ascii.eqb_spec a c) as [->|Hac].
  - destruct (Ascii.eqb_spec d c); congruence.
  - destruct (Ascii.eqb_spec a c); congruence.
Qed.

(** What the second step does to a string with a colon at index 1: the
    slash goes in front and it is the colon at index 1 that disappears, also
    when the first character is a colon itself. *)
Definition driveRewritten r : string :=
  match r with
  | String c (String ":" rest) => String "/" (String c rest)
  | _ => r
  end.

Lemma getPortableSourcePath_shape p :
  getPortableSourcePath p = driveRewritten (JsString.replaceAll "\" "/" p).
Proof.
  unfold getPortableSourcePath.
  destruct (JsString.replaceAll "\" "/" p) as [|c [|d rest]]; [done..|].
  cbn [String.length String.get Nat.leb andb].
  destruct (decide (d = ":"%char)) as [->|Hd].
  - rewrite bool_decide_eq_true_2 by done.
    change ("/" +:+ ?s) with (String "/" s). cbn.
    by destruct (Ascii.eqb_spec c ":") as [->|Hc].
  - rewrite bool_decide_eq_false_2 by congruence.
    unfold driveRewritten.
    destruct d as [[] [] [] [] [] [] [] []]; try done.
Qed.

Lemma getPortableSourcePath_fixed r :
  JsString.replaceAll "\" "/" r = r ->
  String.get 1 r <> Some ":"%char ->
  getPortableSourcePath r = r.
Proof.
  intros Hr H1. rewrite getPortableSourcePath_shape, Hr.
  destruct r as [|c [|d rest]]; [done..|].
  cbn in H1. unfold driveRewritten.
  destruct d as [[] [] [] [] [] [] [] []]; try done.
Qed.

Lemma prefix_two_colons a b s :
  String.prefix "::" (String a (String b s)) = true <-> a = ":"%char /\ b = ":"%char.
Proof.
  rewrite String.prefix_correct. cbn [String.length String.substring].
  assert (String.substring 0 0 s = "") as -> by (by destruct s).
  split; [intros [= -> ->]|intros [-> ->]]; done.
Qed.

(** Idempotence holds for every path that does not start with two colons. *)
Lemma getPortableSourcePath_idempotent_gen p :
  String.prefix "::" p = false ->
  getPortableSourcePath (getPortableSourcePath p) = getPortableSourcePath p.
Proof.
  intros Hp. rewrite (getPortableSourcePath_shape p).
  assert (Hfix := replaceAll_fixed "\" "/" p ltac:(done)).
  assert (Hpre : String.prefix "::" (JsString.replaceAll "\" "/" p) = false).
  { destruct p as [|a [|b p]]; [reflexivity| |].
    { cbn -[ascii_dec]. by destruct (ascii_dec _ _). }
    apply not_true_iff_false. apply not_true_iff_false in Hp.
    intros H. apply Hp. cbn [JsString.replaceAll] in H.
    apply prefix_two_colons in H as [Ha Hb]. apply prefix_two_colons.
    split.
    - destruct (Ascii.eqb_spec a "\"); [discriminate|done].
    - destruct (Ascii.eqb_spec b "\"); [discriminate|done]. }
  destruct (JsString.replaceAll "\" "/" p) as [|c [|d rest]] eqn:Hr;
    [by apply getPortableSourcePath_fixed ..|].
  cbn in Hfix. injection Hfix as Hc Hd Hrest.
  assert (Hgen : forall b, b = d -> b = ":"%char \/ b <> ":"%char).
  { intros b _. destruct (decide (b = ":"%char)); auto. }
  destruct (Hgen d eq_refl) as [->|Hne].
  - (* a colon at index 1: the first character is not a colon *)
    assert (c <> ":"%char) as Hcolon.
    { intros ->. apply not_true_iff_false in Hpre. by apply Hpre, prefix_two_colons. }
    cbn [driveRewritten]. apply getPortableSourcePath_fixed.
    + cbn. by rewrite Hc, Hrest.
    + cbn. congruence.
  - assert (driveRewritten (String c (String d rest)) = String c (String d rest)) as ->.
    { unfold driveRewritten. destruct d as [[] [] [] [] [] [] [] []]; try done. }
    apply getPortableSourcePath_fixed.
    + cbn. by rewrite Hc, Hd, Hrest.
    + cbn. congruence.
Qed.

(** C6: normalisation turns every backslash into a slash and, when the
    result has a colon at index 1, puts a slash in front and drops the first
    colon; the two paths of the specification normalise as it says; a path
    with no backslash and no colon at index 1 is returned as it is; and the
    function, being total, returns a string on every input. *)
Theorem getPortableSourcePath_spec :
  (forall p,
     getPortableSourcePath p =
       let replaced := JsString.replaceAll "\" "/" p in
       if decide (String.get 1 replaced = Some ":"%char)
       then JsString.removeFirst ":" ("/" +:+ replaced)
       else replaced)
  /\ getPortableSourcePath "C:\a\b.sol" = "/C/a/b.sol"
  /\ getPortableSourcePath "/already/posix.sol" = "/already/posix.sol"
  /\ (forall p,
        JsString.replaceAll "\" "/" p = p ->
        String.get 1 p <> Some ":"%char ->
        getPortableSourcePath p = p)
  /\ (forall p, exists r, getPortableSourcePath p = r).
Proof.
  split; [|split; [done|split; [done|split]]].
  - intros p. unfold getPortableSourcePath. cbn zeta.
    destruct (JsString.replaceAll "\" "/" p) as [|c [|d rest]]; [done..|].
    cbn [String.length Nat.leb andb].
    case_bool_decide; by case_decide.
  - apply getPortableSourcePath_fixed.
  - intros p. by eexists.
Qed.

Lemma getPortableSourcePath_spec_witness :
  JsString.replaceAll "\" "/" "contracts/Token.sol" = "contracts/Token.sol"
  /\ String.get 1 "contracts/Token.sol" <> Some ":"%char
  /\ getPortableSourcePath "contracts/Token.sol" = "contracts/Token.sol".
Proof.
  split; [reflexivity|]. split; [discriminate|].
  apply (proj1 (proj2 (proj2 (proj2 getPortableSourcePath_spec)))).
  - reflexivity.
  - discriminate.
Defined.

(** C7, as stated, fails: the path [::\x] contains a backslash, and
    normalising its normal form [/:/x] once more gives [///x]. *)
Lemma getPortableSourcePath_not_idempotent :
  JsString.includes "::\x" "\" = true
  /\ getPortableSourcePath "::\x" = "/:/x"
  /\ getPortableSourcePath (getPortableSourcePath "::\x") = "///x"
  /\ getPortableSourcePath (getPortableSourcePath "::\x") <> getPortableSourcePath "::\x".
Proof. repeat split; done. Qed.

(** C7, amended: for every path that contains a backslash and does not
    start with two colons, normalising twice equals normalising once. *)
Theorem getPortableSourcePath_idempotent p :
  JsString.includes p "\" = true ->
  String.prefix "::" p = false ->
  getPortableSourcePath (getPortableSourcePath p) = getPortableSourcePath p.
Proof. intros _. apply getPortableSourcePath_idempotent_gen. Qed.

Lemma getPortableSourcePath_idempotent_witness :
  getPortableSourcePath (getPortableSourcePath "C:\a\b.sol")
  = getPortableSourcePath "C:\a\b.sol".
Proof. apply (getPortableSourcePath_idempotent "C:\a\b.sol"); reflexivity. Defined.

End PathNormalizer.

Section ObjectAssign.
Context {V : Type}.
Implicit Types (a b : gmap string V) (k : string).

Lemma lookup_assign a b k :
  JsObject.assign a b !! k =
    if decide (k = "__proto__") then None else (b ∪ a) !! k.
Proof.
  unfold JsObject.assign. case_decide as Hk.
  - subst k. apply lookup_delete_eq.
  - by rewrite lookup_delete_ne.
Qed.

(** Merging one-property objects that all hold the same value: the keys of
    the result are the given keys, [__proto__] apart. *)
Lemma lookup_merged_singletons (v : V) (keys : list string) k :
  foldl JsObject.assign ∅ (map (fun key => {[ key := v ]}) keys) !! k =
    if decide (k ∈ keys /\ k <> "__proto__") then Some v else None.
Proof.
  induction keys as [|key keys IH] using rev_ind.
  - cbn. rewrite lookup_empty. case_decide as H; [|done].
    destruct H as [H _]. by apply elem_of_nil in H.
  - rewrite map_app, foldl_app. cbn [map foldl].
    rewrite lookup_assign. destruct (decide (k = "__proto__")) as [Hk|Hk].
    + rewrite decide_False; [done|]. by intros [_ ?].
    + destruct (decide (k = key)) as [->|Hne].
      * erewrite lookup_union_Some_l by apply lookup_singleton_eq.
        rewrite decide_True; [done|]. split; [|done].
        apply elem_of_app. right. by apply list_elem_of_singleton.
      * rewrite lookup_union_r by (by apply lookup_singleton_ne).
        rewrite IH. apply decide_ext.
        rewrite elem_of_app, list_elem_of_singleton. tauto.
Qed.

End ObjectAssign.

Section OutputSelection.
Import Run.

(** The outputs a selector set lists under a contract key. *)
Definition outputsUnder (contractKey : string) (selectors : Selectors) : list string :=
  match list_find (fun entry => entry.1 = contractKey) selectors with
  | Some (_, (_, outputs)) => outputs
  | None => []
  end.

(** How the compiler reads an [outputSelection]: the entry of a file is the
    one under its path or under ["*"]; inside an entry, the key [""] lists
    the outputs of the file as a whole, such as the AST, and the key ["*"]
    the outputs of each of its contracts. *)
Definition requested (contractKey : string) (selection : gmap string Selectors)
    (file output : string) : bool :=
  existsb (fun fileKey =>
             match selection !! fileKey with
             | Some selectors => bool_decide (output ∈ outputsUnder contractKey selectors)
             | None => false
             end)
          [file; "*"].

Definition requestedForFile := requested "".
Definition requestedForContracts := requested "*".

(** C3, as stated, fails: with the single target [a.sol], the selection has
    no entry for the other source file [b.sol], so no AST is requested for
    it. *)
Lemma prepareOutputSelection_no_ast_for_non_target :
  prepareOutputSelection (Some ["a.sol"]) !! "b.sol" = None
  /\ prepareOutputSelection (Some ["a.sol"]) !! "*" = None
  /\ requestedForFile (prepareOutputSelection (Some ["a.sol"])) "b.sol" "ast" = false
  /\ requestedForFile (prepareOutputSelection (Some ["a.sol"])) "a.sol" "ast" = true.
Proof. repeat split; vm_compute; reflexivity. Qed.

Lemma lookup_prepareOutputSelection (targets : option (list string)) (file : string) :
  prepareOutputSelection targets !! file =
    match default [] targets with
    | [] => if decide (file = "*") then Some defaultSelectors else None
    | _ :: _ =>
        if decide (file ∈ default [] targets /\ file <> "__proto__")
        then Some defaultSelectors else None
    end.
Proof.
  unfold prepareOutputSelection. cbn zeta.
  destruct (default [] targets) as [|target targets'].
  - cbn. destruct (decide (file = "*")) as [->|H].
    + apply lookup_singleton_eq.
    + by apply lookup_singleton_ne.
  - rewrite decide_False by done. apply lookup_merged_singletons.
Qed.

(** C3, amended: with targets, the keys of the selection are exactly the
    target paths (a path spelled [__proto__] apart), each holding the whole
    fixed selector set, so that AST and contract outputs alike are requested
    for the targets only; without targets, the whole selector set stands
    under the key ["*"]. *)
Theorem prepareOutputSelection_spec (targets : option (list string)) (file : string) :
  prepareOutputSelection targets !! file =
    match default [] targets with
    | [] => if decide (file = "*") then Some defaultSelectors else None
    | _ :: _ =>
        if decide (file ∈ default [] targets /\ file <> "__proto__")
        then Some defaultSelectors else None
    end.
Proof. apply lookup_prepareOutputSelection. Qed.

(** With targets, none of which is ["*"], the AST of a file is requested
    exactly when the file is a target. *)
Lemma ast_requested_for_targets_only (targets : list string) (file : string) :
  targets <> [] -> "*" ∉ targets ->
  requestedForFile (prepareOutputSelection (Some targets)) file "ast" = true
  <-> file ∈ targets /\ file <> "__proto__".
Proof.
  intros Hne Hstar. unfold requestedForFile, requested. cbn [existsb].
  rewrite !lookup_prepareOutputSelection. cbn [default id].
  destruct targets as [|t ts]; [done|].
  rewrite (decide_False (P := "*" ∈ t :: ts /\ _)) by (by intros [? _]).
  rewrite !orb_false_r. case_decide as H.
  - split; [done|]. intros _. vm_compute. reflexivity.
  - split; [done|]. intros ?. done.
Qed.

End OutputSelection.

Section StringFacts.
Implicit Types s t : string.

Lemma length_positive s : (0 <? String.length s) = true <-> s <> "".
Proof. destruct s; cbn; split; done. Qed.

Lemma length_zero s : (0 <? String.length s) = false <-> s = "".
Proof. destruct s; cbn; split; done. Qed.

Lemma append_nonempty s t : s <> "" -> s +:+ t <> "".
Proof. by destruct s. Qed.

Lemma str_app_cons a s t : String a s +:+ t = String a (s +:+ t).
Proof. reflexivity. Qed.

Lemma str_length_app s t : String.length (s +:+ t) = String.length s + String.length t.
Proof. induction s as [|a s IH]; [done|]. rewrite str_app_cons. cbn. by rewrite IH. Qed.

Lemma str_app_empty_r s : s +:+ "" = s.
Proof. induction s as [|a s IH]; [done|]. by rewrite str_app_cons, IH. Qed.

Lemma str_app_assoc s t u : (s +:+ t) +:+ u = s +:+ t +:+ u.
Proof. induction s as [|a s IH]; [done|]. by rewrite !str_app_cons, IH. Qed.

Lemma length_substring n m s :
  String.length (String.substring n m s) = Nat.min m (String.length s - n).
Proof.
  revert n m. induction s as [|a s IH]; intros [|n] [|m]; cbn; try done.
  by rewrite IH, Nat.sub_0_r.
Qed.

(** The part of [s] from index [n] on. *)
Definition suffixFrom n s : string := String.substring n (String.length s - n) s.

Lemma substring_whole s : String.substring 0 (String.length s) s = s.
Proof. induction s as [|a s IH]; cbn; [done|]. by rewrite IH. Qed.

Lemma suffixFrom_0 s : suffixFrom 0 s = s.
Proof. unfold suffixFrom. rewrite Nat.sub_0_r. apply substring_whole. Qed.

Lemma suffixFrom_cons n a s : suffixFrom (S n) (String a s) = suffixFrom n s.
Proof. done. Qed.

Lemma length_suffixFrom n s : String.length (suffixFrom n s) = String.length s - n.
Proof. unfold suffixFrom. rewrite length_substring. lia. Qed.

Lemma substring_split n s :
  s = String.substring 0 n s +:+ suffixFrom n s.
Proof.
  revert n. induction s as [|a s IH]; intros [|n]; try done.
  - by rewrite suffixFrom_0.
  - rewrite suffixFrom_cons. cbn [String.substring]. by rewrite str_app_cons, <- IH.
Qed.

Lemma substring_suffixFrom n m s :
  String.substring n m s = String.substring 0 m (suffixFrom n s).
Proof.
  revert n. induction s as [|a s IH]; intros [|n]; try done.
  - by destruct m.
  - by rewrite suffixFrom_0.
  - rewrite suffixFrom_cons. cbn. apply IH.
Qed.

Lemma suffixFrom_add n m s : suffixFrom (n + m) s = suffixFrom m (suffixFrom n s).
Proof.
  revert n. induction s as [|a s IH]; intros [|n]; try done.
  - cbn. by destruct m.
  - cbn [Nat.add]. by rewrite suffixFrom_0.
  - cbn [Nat.add]. rewrite !suffixFrom_cons. apply IH.
Qed.

(** A string cut in three: before index [n], [m] characters, and the rest. *)
Lemma substring_split3 n m s :
  s = String.substring 0 n s +:+ String.substring n m s +:+ suffixFrom (n + m) s.
Proof.
  rewrite (substring_split n s) at 1. f_equal.
  rewrite (substring_split m (suffixFrom n s)) at 1.
  by rewrite <- substring_suffixFrom, <- suffixFrom_add.
Qed.

End StringFacts.

Section FilterFacts.
Context {A : Type} (P : A -> Prop) `{forall x, Decision (P x)}.

Lemma filter_all (l : list A) : Forall P l -> filter P l = l.
Proof.
  induction 1 as [|x l Hx _ IH]; [done|].
  by rewrite filter_cons_True, IH.
Qed.

Lemma filter_none (l : list A) : Forall P l -> filter (fun x => ~ P x) l = [].
Proof.
  induction 1 as [|x l Hx _ IH]; [done|].
  rewrite filter_cons_False; [done|]. by intros Hn.
Qed.

End FilterFacts.

Lemma list_filter_iff_among {A : Type} (P Q : A -> Prop)
    `{forall x, Decision (P x)} `{forall x, Decision (Q x)} (l : list A) :
  (forall x, x ∈ l -> P x <-> Q x) -> filter P l = filter Q l.
Proof.
  induction l as [|x l IH]; intros Hiff; [done|].
  rewrite !filter_cons. rewrite IH by (intros; apply Hiff; by right).
  assert (P x <-> Q x) by (apply Hiff; by left).
  destruct (decide (P x)), (decide (Q x)); tauto || done.
Qed.

Section Diagnostics.
Import Run.
Variable EOL : string.

Definition versionMismatch : string := "requires different compiler version".

(** Every diagnostic is a warning. *)
Definition onlyWarnings (diagnostics : list Diagnostic) : Prop :=
  Forall (fun d => severity d = "warning") diagnostics.

(** The formatted messages of a list of diagnostics, joined. *)
Definition joinedMessages (diagnostics : list Diagnostic) : string :=
  JsString.join (map formattedMessage diagnostics).

(** The strings that [detectErrors] calls [errors] and [warnings]: the joined
    messages of the diagnostics that count as errors, and of those that count
    as warnings. *)
Definition joinedErrors (outputErrors : list Diagnostic) (options : Options) : string :=
  joinedMessages
    (if strict options then outputErrors
     else filter (fun d => severity d <> "warning") outputErrors).

Definition joinedWarnings (outputErrors : list Diagnostic) (options : Options) : string :=
  joinedMessages
    (if strict options then []
     else filter (fun d => severity d = "warning") outputErrors).

Lemma joined_strict diagnostics q v :
  joinedErrors diagnostics {| strict := true; quiet := q; solcVersion := v |}
    = joinedMessages diagnostics
  /\ joinedWarnings diagnostics {| strict := true; quiet := q; solcVersion := v |} = "".
Proof. done. Qed.

Lemma joined_lenient diagnostics q v :
  onlyWarnings diagnostics ->
  joinedErrors diagnostics {| strict := false; quiet := q; solcVersion := v |} = ""
  /\ joinedWarnings diagnostics {| strict := false; quiet := q; solcVersion := v |}
     = joinedMessages diagnostics.
Proof.
  intros Hw. unfold joinedErrors, joinedWarnings, joinedMessages. cbn [strict].
  rewrite (filter_none (fun d => severity d = "warning")) by done.
  by rewrite (filter_all (fun d => severity d = "warning")) by done.
Qed.

(** The possible completions of [detectErrors] once the error string is
    known. *)
Lemma detectErrors_cases outputErrors options :
  let errors := joinedErrors (default [] outputErrors) options in
  let warnings := joinedWarnings (default [] outputErrors) options in
  detectErrors EOL outputErrors options =
    if JsString.includes errors versionMismatch then
      match matchPragma errors, truthy (solcVersion options) with
      | None, _ => Throw TypeError
      | Some _, None => Throw ReferenceError
      | Some contractSolcVer, Some configSolcVer =>
          Ok (warnings, errors +:+ versionNote EOL configSolcVer contractSolcVer)
      end
    else Ok (warnings, errors).
Proof.
  cbn zeta. unfold detectErrors, versionMismatch.
  destruct (JsString.includes _ _); [|done].
  destruct (matchPragma _); [|done].
  by destruct (truthy _).
Qed.

(** A list of warnings under [strict = false]: [detectErrors] returns the
    joined warnings and the empty error string, and the run goes on. *)
Lemma lenient_warnings_pass diagnostics q v :
  onlyWarnings diagnostics ->
  let options := {| strict := false; quiet := q; solcVersion := v |} in
  detectErrors EOL (Some diagnostics) options = Ok (joinedMessages diagnostics, "")
  /\ runDiagnostics EOL (Some diagnostics) options =
       (if (0 <? String.length (joinedMessages diagnostics)) && negb q
        then [EOL +:+ "    > compilation warnings encountered:" +:+ EOL;
              joinedMessages diagnostics]
        else [],
        Ok tt).
Proof.
  intros Hw options.
  destruct (joined_lenient diagnostics q v Hw) as [He Hj].
  assert (detectErrors EOL (Some diagnostics) options
          = Ok (joinedMessages diagnostics, "")) as Hd.
  { rewrite detectErrors_cases. cbn zeta. cbn [default id]. unfold options.
    rewrite He, Hj. reflexivity. }
  split; [done|]. unfold runDiagnostics. rewrite Hd. reflexivity.
Qed.

(** A non-empty error string never lets the run go on. *)
Lemma nonempty_errors_abort outputErrors options :
  joinedErrors (default [] outputErrors) options <> "" ->
  exists e, (runDiagnostics EOL outputErrors options).2 = Throw e.
Proof.
  intros Hne. unfold runDiagnostics. rewrite detectErrors_cases. cbn zeta.
  destruct (JsString.includes _ _).
  - destruct (matchPragma _); [|by eexists].
    destruct (truthy _); [|by eexists].
    apply (append_nonempty _ (versionNote EOL s0 s)), length_positive in Hne.
    rewrite Hne. by eexists.
  - apply length_positive in Hne. rewrite Hne. by eexists.
Qed.

(** C5, amended: for every list of warnings whose joined messages are not
    empty, a strict run is aborted, by a CompileError that carries exactly
    the joined messages when they do not mention a version mismatch; and for
    every list of warnings, a run that is not strict goes on, with the joined
    warnings returned (and logged unless [quiet]) and the empty error
    string. *)
Theorem warnings_strict_and_lenient diagnostics q v :
  onlyWarnings diagnostics ->
  joinedMessages diagnostics <> "" ->
  let strictOptions := {| strict := true; quiet := q; solcVersion := v |} in
  let lenientOptions := {| strict := false; quiet := q; solcVersion := v |} in
  (exists e, (runDiagnostics EOL (Some diagnostics) strictOptions).2 = Throw e)
  /\ (JsString.includes (joinedMessages diagnostics) versionMismatch = false ->
      runDiagnostics EOL (Some diagnostics) strictOptions =
        (if q then [] else [""], Throw (CompileError (joinedMessages diagnostics))))
  /\ detectErrors EOL (Some diagnostics) lenientOptions
       = Ok (joinedMessages diagnostics, "")
  /\ runDiagnostics EOL (Some diagnostics) lenientOptions =
       (if q then []
        else [EOL +:+ "    > compilation warnings encountered:" +:+ EOL;
              joinedMessages diagnostics],
        Ok tt).
Proof.
  intros Hw Hne strictOptions lenientOptions.
  split; [by apply nonempty_errors_abort|]. split.
  - intros Hv. unfold runDiagnostics. rewrite detectErrors_cases. cbn zeta.
    cbn [default id]. unfold strictOptions.
    destruct (joined_strict diagnostics q v) as [-> ->]. rewrite Hv.
    apply length_positive in Hne. rewrite Hne. cbn. by destruct q.
  - destruct (lenient_warnings_pass diagnostics q v Hw) as [Hd Hr].
    split; [done|]. unfold lenientOptions. rewrite Hr.
    apply length_positive in Hne. rewrite Hne. by destruct q.
Qed.

(** C10: [detectErrors] can throw instead of returning. The error string is
    the joined messages of the diagnostics that count as errors: all of them
    in strict mode, those that are no warnings otherwise. When the error
    string mentions a version mismatch, [detectErrors] throws a TypeError if
    the string holds no [pragma solidity] match, and a ReferenceError if it
    holds one and no truthy version is configured, so that it returns only
    with both a match and a configured version. *)
Theorem detectErrors_can_throw outputErrors options :
  let errors := joinedErrors (default [] outputErrors) options in
  JsString.includes errors versionMismatch = true ->
  (matchPragma errors = None ->
     detectErrors EOL outputErrors options = Throw TypeError)
  /\ (matchPragma errors <> None -> truthy (solcVersion options) = None ->
        detectErrors EOL outputErrors options = Throw ReferenceError)
  /\ (truthy (solcVersion options) = None ->
        exists e, detectErrors EOL outputErrors options = Throw e
                  /\ (e = TypeError \/ e = ReferenceError)).
Proof.
  intros errors Hv. rewrite detectErrors_cases. cbn zeta. fold errors.
  rewrite Hv. repeat split.
  - by intros ->.
  - intros Hm ->. by destruct (matchPragma errors).
  - intros ->. destruct (matchPragma errors); eexists; eauto.
Qed.

(** The same on the joined messages of the whole list, which are the error
    string in strict mode and when no diagnostic is a warning. *)
Lemma detectErrors_throws_on_joined_messages diagnostics options :
  strict options = true \/ Forall (fun d => severity d <> "warning") diagnostics ->
  JsString.includes (joinedMessages diagnostics) versionMismatch = true ->
  matchPragma (joinedMessages diagnostics) = None ->
  detectErrors EOL (Some diagnostics) options = Throw TypeError.
Proof.
  intros Hall Hv Hm.
  assert (joinedErrors diagnostics options = joinedMessages diagnostics) as He.
  { unfold joinedErrors, joinedMessages. destruct Hall as [->|Hall]; [done|].
    destruct (strict options); [done|].
    by rewrite (filter_all (fun d => severity d <> "warning")). }
  rewrite detectErrors_cases. cbn zeta. cbn [default id]. by rewrite He, Hv, Hm.
Qed.

End Diagnostics.

Section DiagnosticsExamples.
Import Run.

(** [OS.EOL] on a POSIX system: a line feed. *)
Definition posixEOL : string := String "010"%char "".

Definition unusedVariableWarning : Diagnostic :=
  {| severity := "warning";
     formattedMessage := Some "Token.sol:7:5: Warning: Unused local variable." |}.

Definition silentWarning : Diagnostic :=
  {| severity := "warning"; formattedMessage := Some "" |}.

(** A version mismatch reported without the offending line, and one reported
    with it. *)
Definition bareMismatch : Diagnostic :=
  {| severity := "error";
     formattedMessage :=
       Some "Token.sol:1:1: SyntaxError: Source file requires different compiler version" |}.

Definition quotedMismatch : Diagnostic :=
  {| severity := "error";
     formattedMessage :=
       Some "Token.sol:1:1: SyntaxError: Source file requires different compiler version (current compiler is 0.5.0) pragma solidity ^0.4.24; ^---^" |}.

(** C5, as stated, fails: the empty list holds only warnings, and so does a
    list of one warning with an empty message; a strict run goes on after
    either. *)
Lemma strict_run_passes_without_messages :
  onlyWarnings []
  /\ runDiagnostics posixEOL (Some [])
       {| strict := true; quiet := false; solcVersion := None |} = ([], Ok tt)
  /\ onlyWarnings [silentWarning]
  /\ runDiagnostics posixEOL (Some [silentWarning])
       {| strict := true; quiet := false; solcVersion := None |} = ([], Ok tt).
Proof.
  split; [constructor|]. split; [reflexivity|].
  split; [by repeat constructor|reflexivity].
Qed.

Lemma warnings_strict_and_lenient_witness :
  onlyWarnings [unusedVariableWarning]
  /\ joinedMessages [unusedVariableWarning] <> ""
  /\ runDiagnostics posixEOL (Some [unusedVariableWarning])
       {| strict := true; quiet := false; solcVersion := None |}
     = ([""], Throw (CompileError "Token.sol:7:5: Warning: Unused local variable."))
  /\ runDiagnostics posixEOL (Some [unusedVariableWarning])
       {| strict := false; quiet := false; solcVersion := None |}
     = ([posixEOL +:+ "    > compilation warnings encountered:" +:+ posixEOL;
         "Token.sol:7:5: Warning: Unused local variable."],
        Ok tt).
Proof.
  assert (onlyWarnings [unusedVariableWarning]) as Hw by (by repeat constructor).
  assert (joinedMessages [unusedVariableWarning] <> "") as Hne by discriminate.
  split; [exact Hw|]. split; [exact Hne|].
  destruct (warnings_strict_and_lenient posixEOL [unusedVariableWarning]
              false None Hw Hne) as (_ & Hstrict & _ & Hlenient).
  split; [apply Hstrict; reflexivity|exact Hlenient].
Defined.

Lemma detectErrors_can_throw_witness :
  detectErrors posixEOL (Some [bareMismatch])
    {| strict := false; quiet := false; solcVersion := Some "0.5.0" |} = Throw TypeError
  /\ detectErrors posixEOL (Some [quotedMismatch])
       {| strict := false; quiet := false; solcVersion := None |} = Throw ReferenceError.
Proof.
  split.
  - apply (detectErrors_can_throw posixEOL (Some [bareMismatch])
             {| strict := false; quiet := false; solcVersion := Some "0.5.0" |});
      vm_compute; reflexivity.
  - apply (detectErrors_can_throw posixEOL (Some [quotedMismatch])
             {| strict := false; quiet := false; solcVersion := None |});
      [vm_compute; reflexivity|discriminate|reflexivity].
Defined.

(** A warning that carries the text of a version mismatch. *)
Definition mismatchWarning : Diagnostic :=
  {| severity := "warning";
     formattedMessage :=
       Some "Token.sol:1:1: Warning: Source file requires different compiler version" |}.

(** C10, as stated over the joined messages of the whole list, fails twice.
    The messages of a list that holds only [mismatchWarning] mention the
    mismatch and hold no pragma, and [detectErrors] returns when the run is
    not strict, the warning being no part of the error string. And on
    messages without a pragma the ReferenceError is never reached: without a
    configured version the TypeError of the failed match comes first. *)
Lemma detectErrors_returns_on_mismatch_warning :
  (JsString.includes (joinedMessages [mismatchWarning]) versionMismatch = true
   /\ matchPragma (joinedMessages [mismatchWarning]) = None
   /\ detectErrors posixEOL (Some [mismatchWarning])
        {| strict := false; quiet := false; solcVersion := None |}
      = Ok (joinedMessages [mismatchWarning], ""))
  /\ (JsString.includes (joinedMessages [bareMismatch]) versionMismatch = true
      /\ matchPragma (joinedMessages [bareMismatch]) = None
      /\ truthy (solcVersion {| strict := false; quiet := false; solcVersion := None |})
         = None
      /\ detectErrors posixEOL (Some [bareMismatch])
           {| strict := false; quiet := false; solcVersion := None |}
         = Throw TypeError).
Proof. repeat split; vm_compute; reflexivity. Qed.

(** With a match and a configured version the note is appended. *)
Example detectErrors_appends_note :
  exists note,
    detectErrors posixEOL (Some [quotedMismatch])
      {| strict := false; quiet := false; solcVersion := Some "0.5.0" |}
    = Ok ("", JsString.join [formattedMessage quotedMismatch] +:+ note)
    /\ note = versionNote posixEOL "0.5.0"
                "pragma solidity ^0.4.24".
Proof. eexists. split; [vm_compute|]; reflexivity. Qed.

End DiagnosticsExamples.

Section Padding.
Implicit Types s : string.

(** [n] underscores. *)
Definition underscores (n : nat) : string := JsString.padLoop n "".

Lemma padLoop_app fuel s : JsString.padLoop fuel s = s +:+ underscores fuel.
Proof.
  unfold underscores. revert s. induction fuel as [|fuel IH]; intros s; cbn.
  - by rewrite str_app_empty_r.
  - rewrite (IH (s +:+ "_")), (IH ("" +:+ "_")). by rewrite str_app_assoc.
Qed.

Lemma length_underscores n : String.length (underscores n) = n.
Proof.
  induction n as [|n IH]; [done|].
  change (underscores (S n)) with (JsString.padLoop n ("" +:+ "_")).
  rewrite padLoop_app, str_length_app, IH.
  change (String.length ("" +:+ "_")) with 1. lia.
Qed.

Lemma padUnderscores_app (w : Z) s :
  JsString.padUnderscores w s
  = s +:+ underscores (Z.to_nat (w - Z.of_nat (String.length s))).
Proof. apply padLoop_app. Qed.

Lemma length_padUnderscores (w : Z) s :
  String.length (JsString.padUnderscores w s)
  = Nat.max (Z.to_nat w) (String.length s).
Proof. rewrite padUnderscores_app, str_length_app, length_underscores. lia. Qed.

End Padding.

Section LinkReferenceResolver.
Import Run.

Implicit Types (bytecode linkId libraryName : string) (ref : LinkReference.t).

(** One round of the loop of [replaceLinkReferences]. *)
Definition spliced bytecode linkId ref : string :=
  let start := (LinkReference.start ref * 2)%Z in
  JsString.substring2 bytecode 0 start +:+ linkId
    +:+ JsString.substring1 bytecode (start + 40).

Lemma replaceLinkReferences_unfold bytecode links libraryName :
  replaceLinkReferences bytecode links libraryName
  = foldl (fun b ref =>
             spliced b (JsString.padUnderscores 40 ("__" +:+ libraryName)) ref)
          bytecode links.
Proof. reflexivity. Qed.

(** The 40 characters at the character offset of the reference lie inside a
    string of [len] characters. *)
Definition slotInside (len : nat) ref : Prop :=
  (0 <= LinkReference.start ref
   /\ LinkReference.start ref * 2 + 40 <= Z.of_nat len)%Z.

#[global] Instance slotInside_dec len ref : Decision (slotInside len ref).
Proof. unfold slotInside. apply _. Defined.

(** Inside the string, a round keeps what stands before the slot and what
    stands after it. *)
Lemma spliced_inside bytecode linkId ref :
  slotInside (String.length bytecode) ref ->
  let n := Z.to_nat (LinkReference.start ref * 2) in
  spliced bytecode linkId ref
  = String.substring 0 n bytecode +:+ linkId +:+ suffixFrom (n + 40) bytecode.
Proof.
  intros [H0 H1] n. unfold spliced, JsString.substring2, JsString.substring1.
  unfold JsString.clamp. fold n.
  replace (Z.to_nat 0) with 0 by done.
  replace (Z.to_nat (LinkReference.start ref * 2 + 40)) with (n + 40) by lia.
  rewrite Nat.min_0_l, Nat.max_0_l, Nat.sub_0_r.
  rewrite (Nat.min_l n) by lia.
  rewrite (Nat.min_l (n + 40)) by lia.
  reflexivity.
Qed.

Lemma length_spliced bytecode linkId ref :
  slotInside (String.length bytecode) ref ->
  String.length linkId = 40 ->
  String.length (spliced bytecode linkId ref) = String.length bytecode.
Proof.
  intros Hin Hid. rewrite spliced_inside by done. cbn zeta.
  destruct Hin as [H0 H1].
  rewrite !str_length_app, length_substring, length_suffixFrom, Hid. lia.
Qed.

Lemma length_linkId libraryName :
  String.length libraryName <= 38 ->
  String.length (JsString.padUnderscores 40 ("__" +:+ libraryName)) = 40.
Proof.
  intros Hn. rewrite length_padUnderscores, str_length_app.
  change (String.length "__") with 2. lia.
Qed.

Lemma length_replaceLinkReferences bytecode links libraryName :
  String.length libraryName <= 38 ->
  Forall (slotInside (String.length bytecode)) links ->
  String.length (replaceLinkReferences bytecode links libraryName)
  = String.length bytecode.
Proof.
  intros Hn. rewrite replaceLinkReferences_unfold.
  revert bytecode. induction links as [|ref links IH]; intros bytecode Hin; [done|].
  apply Forall_cons in Hin as [Href Hin]. cbn [foldl].
  assert (Hlen := length_spliced bytecode _ ref Href (length_linkId _ Hn)).
  rewrite IH; [done|]. by rewrite Hlen.
Qed.

(** The flat list of pairs of a library name and its references. *)
Lemma foldl_app_concat {A : Type} (ls : list (list A)) (acc : list A) :
  foldl (fun a b => a ++ b) acc ls = acc ++ concat ls.
Proof.
  revert acc. induction ls as [|l ls IH]; intros acc; cbn.
  - by rewrite app_nil_r.
  - by rewrite IH, app_assoc.
Qed.

Lemma map_pair_id {A B : Type} (l : list (A * B)) :
  map (fun '(a, b) => (a, b)) l = l.
Proof. induction l as [|[a b] l IH]; cbn; [done|]. by rewrite IH. Qed.

Lemma replaceAllLinkReferences_unfold bytecode (references : LinkReferences) :
  replaceAllLinkReferences bytecode (Some references)
  = Ok ("0x" +:+
        foldl (fun b '(libraryName, links) => replaceLinkReferences b links libraryName)
              bytecode (concat (map snd references))).
Proof.
  unfold replaceAllLinkReferences. cbn [JsObject.values mbind result_bind].
  do 2 f_equal. rewrite foldl_app_concat. cbn [app]. f_equal.
  induction references as [|[file fileLinks] references IH]; cbn; [done|].
  by rewrite IH, (map_pair_id fileLinks).
Qed.

(** Every library name leaves room for the two leading underscores, and
    every slot lies inside a string of [len] characters. *)
Definition fitsBytecode (len : nat) (references : LinkReferences) : Prop :=
  Forall (fun fileEntry =>
            Forall (fun libraryEntry =>
                      String.length libraryEntry.1 <= 38
                      /\ Forall (slotInside len) libraryEntry.2)
                   fileEntry.2)
         references.

Definition oneSlot : LinkReferences :=
  [("Token.sol", [("L", [{| LinkReference.start := 0; LinkReference.length := 20 |}])])].

(** C1, as stated, fails: a reference whose slot reaches past the end of the
    bytecode makes the result longer than the input. *)
Lemma replaceAllLinkReferences_grows :
  replaceAllLinkReferences "6000" (Some oneSlot)
    = Ok ("0x" +:+ "__L_____________________________________")
  /\ String.length "__L_____________________________________" <> String.length "6000".
Proof. split; [vm_compute; reflexivity|discriminate]. Qed.

Lemma length_resolved bytecode (references : LinkReferences) :
  fitsBytecode (String.length bytecode) references ->
  String.length
    (foldl (fun b '(libraryName, links) => replaceLinkReferences b links libraryName)
           bytecode (concat (map snd references)))
  = String.length bytecode.
Proof.
  intros Hfit.
  assert (Forall (fun libraryEntry : string * list LinkReference.t =>
                    String.length libraryEntry.1 <= 38
                    /\ Forall (slotInside (String.length bytecode)) libraryEntry.2)
                 (concat (map snd references))) as Hflat.
  { apply Forall_concat, Forall_fmap. eapply Forall_impl; [exact Hfit|].
    by intros [file fileLinks]. }
  clear Hfit. revert bytecode Hflat.
  induction (concat (map snd references)) as [|[libraryName links] entries IH];
    intros bytecode Hflat; [done|].
  apply Forall_cons in Hflat as [[Hn Hin] Hflat]. cbn [foldl].
  assert (Hlen := length_replaceLinkReferences bytecode links libraryName Hn Hin).
  rewrite IH; [done|]. by rewrite Hlen.
Qed.

(** C1, amended: for every bytecode and every reference structure the
    result is ["0x"] followed by a string, and that string is as long as the
    bytecode when every slot lies inside the bytecode and every library name
    has at most 38 characters. *)
Theorem replaceAllLinkReferences_preserves_length bytecode
    (references : LinkReferences) :
  exists unprefixed,
    replaceAllLinkReferences bytecode (Some references) = Ok ("0x" +:+ unprefixed)
    /\ (fitsBytecode (String.length bytecode) references ->
        String.length unprefixed = String.length bytecode).
Proof.
  rewrite replaceAllLinkReferences_unfold. eexists. split; [done|].
  apply length_resolved.
Qed.

Lemma replaceAllLinkReferences_preserves_length_witness :
  exists unprefixed,
    replaceAllLinkReferences "7300000000000000000000000000000000000000006000"
      (Some oneSlot) = Ok ("0x" +:+ unprefixed)
    /\ String.length unprefixed = 46.
Proof.
  destruct (replaceAllLinkReferences_preserves_length
              "7300000000000000000000000000000000000000006000" oneSlot)
    as (unprefixed & Heq & Hlen).
  exists unprefixed. split; [exact Heq|].
  apply Hlen. repeat constructor; cbn; lia.
Defined.

(** A single reference whose slot lies inside the bytecode, for a library
    name of at most 38 characters: the bytecode is cut in three, the 40
    characters in the middle are replaced by the 40 characters of the token,
    and the two ends stay. *)
Lemma replaceLinkReferences_one bytecode ref libraryName :
  String.length libraryName <= 38 ->
  slotInside (String.length bytecode) ref ->
  exists before old after token,
    bytecode = before +:+ old +:+ after
    /\ Z.of_nat (String.length before) = (LinkReference.start ref * 2)%Z
    /\ String.length old = 40
    /\ token = "__" +:+ libraryName +:+ underscores (38 - String.length libraryName)
    /\ String.length token = 40
    /\ replaceLinkReferences bytecode [ref] libraryName = before +:+ token +:+ after.
Proof.
  intros Hn Hin. set (n := Z.to_nat (LinkReference.start ref * 2)).
  exists (String.substring 0 n bytecode), (String.substring n 40 bytecode),
         (suffixFrom (n + 40) bytecode),
         (JsString.padUnderscores 40 ("__" +:+ libraryName)).
  destruct Hin as [H0 H1].
  split; [apply substring_split3|].
  split; [rewrite length_substring; lia|].
  split; [rewrite length_substring; lia|].
  split.
  { rewrite padUnderscores_app, str_app_assoc, str_length_app. do 3 f_equal.
    change (String.length "__") with 2. lia. }
  split; [by apply length_linkId|].
  rewrite replaceLinkReferences_unfold. cbn [foldl].
  by rewrite spliced_inside.
Qed.

(** The scenario of the specification: [MathLib] at byte offset 10 of fifty
    zero bytes. *)
Definition fiftyZeroBytes : string :=
  "0000000000000000000000000000000000000000000000000000000000000000000000000000000000000000000000000000".

Example replaceLinkReferences_MathLib :
  replaceLinkReferences fiftyZeroBytes
    [{| LinkReference.start := 10; LinkReference.length := 20 |}] "MathLib"
  = "00000000000000000000" +:+ "__MathLib_______________________________"
      +:+ "0000000000000000000000000000000000000000"
  /\ String.length "__MathLib_______________________________" = 40.
Proof. split; vm_compute; reflexivity. Qed.

(** A library whose name has 43 characters, referenced at byte offset 1 of a
    bytecode of 26 bytes. *)
Definition longLibraryName : string := "SafeMathWithOverflowChecksAndFixedPointMath".

Definition callerBytecode : string :=
  "73000000000000000000000000000000000000000063ffffffff".

Definition callerReference : LinkReference.t :=
  {| LinkReference.start := 1; LinkReference.length := 20 |}.

(** The token in the words of the specification: two underscores, the
    library name truncated to fit, and underscores up to width 40. *)
Definition specPlaceholderToken libraryName : string :=
  JsString.padUnderscores 40 ("__" +:+ String.substring 0 38 libraryName).

Lemma length_specPlaceholderToken libraryName :
  String.length (specPlaceholderToken libraryName) = 40.
Proof.
  unfold specPlaceholderToken.
  rewrite length_padUnderscores, str_length_app, length_substring.
  change (String.length "__") with 2. lia.
Qed.

(** For a name of at most 38 characters the code builds that token. *)
Lemma linkId_is_specPlaceholderToken libraryName :
  String.length libraryName <= 38 ->
  JsString.padUnderscores 40 ("__" +:+ libraryName) = specPlaceholderToken libraryName.
Proof.
  intros Hn. unfold specPlaceholderToken. do 2 f_equal.
  rewrite (substring_split 38 libraryName) at 1.
  assert (suffixFrom 38 libraryName = "") as ->; [|by rewrite str_app_empty_r].
  assert (String.length (suffixFrom 38 libraryName) = 0) as Hlen
    by (rewrite length_suffixFrom; lia).
  by destruct (suffixFrom 38 libraryName).
Qed.

(** C2 on such a name: the token is not truncated. It has 45 characters, it
    still replaces 40, and the bytecode grows from 52 to 57 characters, the
    code after the slot moving by five. *)
Theorem replaceLinkReferences_keeps_long_name :
  replaceLinkReferences callerBytecode [callerReference] longLibraryName
  = "73" +:+ ("__" +:+ longLibraryName) +:+ "63ffffffff"
  /\ replaceLinkReferences callerBytecode [callerReference] longLibraryName
     <> "73" +:+ specPlaceholderToken longLibraryName +:+ "63ffffffff"
  /\ String.length ("__" +:+ longLibraryName) = 45
  /\ slotInside (String.length callerBytecode) callerReference
  /\ String.length callerBytecode = 52
  /\ String.length
       (replaceLinkReferences callerBytecode [callerReference] longLibraryName) = 57.
Proof.
  split; [vm_compute; reflexivity|]. split; [by vm_compute|].
  split; [reflexivity|].
  split; [split; cbn; lia|]. split; reflexivity.
Qed.

(** The reducer of [legacy/shims.js], on the same bytecode and reference,
    cuts the name down to 38 characters and keeps the length. *)
Example shimBytecode_truncates_long_name :
  LegacyShims.shimBytecode
    (BytecodeObject (Some callerBytecode)
       (Some [{| ShimLinkReference.offsets := [1%Z];
                 ShimLinkReference.length := 20;
                 ShimLinkReference.name := longLibraryName |}]))
  = Ok (Hex ("0x" +:+ "73" +:+ "__SafeMathWithOverflowChecksAndFixedPoin"
               +:+ "63ffffffff"))
  /\ String.length "__SafeMathWithOverflowChecksAndFixedPoin" = 40.
Proof. split; vm_compute; reflexivity. Qed.

(** C8 on an absent reference set: [Object.values(undefined)] throws, for
    every bytecode. *)
Theorem replaceAllLinkReferences_absent bytecode :
  replaceAllLinkReferences bytecode None = Throw TypeError.
Proof. reflexivity. Qed.

(** An empty reference set, and one whose libraries list no offsets, only
    add the prefix. *)
Lemma replaceAllLinkReferences_empty bytecode :
  replaceAllLinkReferences bytecode (Some []) = Ok ("0x" +:+ bytecode).
Proof. reflexivity. Qed.

Lemma replaceAllLinkReferences_no_offsets bytecode (references : LinkReferences) :
  Forall (fun fileEntry => Forall (fun libraryEntry => libraryEntry.2 = [])
                                  fileEntry.2) references ->
  replaceAllLinkReferences bytecode (Some references) = Ok ("0x" +:+ bytecode).
Proof.
  intros Hnone. rewrite replaceAllLinkReferences_unfold. do 2 f_equal.
  set (entries := concat (map snd references)).
  assert (Forall (fun libraryEntry : string * list LinkReference.t =>
                    libraryEntry.2 = []) entries) as Hflat.
  { apply Forall_concat, Forall_fmap. eapply Forall_impl; [exact Hnone|].
    by intros [file fileLinks]. }
  clearbody entries. clear Hnone. induction Hflat as [|[libraryName links] entries Hl _ IH]; [done|].
  cbn in Hl. subst links. cbn [foldl]. exact IH.
Qed.

(** The reducer of [legacy/shims.js] takes an absent reference set for an
    empty one. *)
Example shimBytecode_absent_references bytes :
  LegacyShims.shimBytecode (BytecodeObject (Some bytes) None)
  = Ok (Hex ("0x" +:+ bytes)).
Proof. reflexivity. Qed.

End LinkReferenceResolver.

Section Sorting.
Import Run.
Context {A : Type} (R : relation A) `{forall x y, Decision (R x y)}.

Lemma sortInsert_Permutation x l : sortInsert R x l ≡ₚ x :: l.
Proof.
  induction l as [|y l IH]; cbn; [done|].
  case_decide; [done|]. rewrite IH. apply Permutation_swap.
Qed.

Lemma sortBy_Permutation l : sortBy R l ≡ₚ l.
Proof.
  induction l as [|x l IH]; cbn; [done|].
  fold (sortBy R l). by rewrite sortInsert_Permutation, IH.
Qed.

Lemma HdRel_sortInsert `{!Total R} x y l :
  R y x -> HdRel R y l -> HdRel R y (sortInsert R x l).
Proof.
  intros Hyx Hhd. destruct l as [|z l]; cbn; [by constructor|].
  case_decide; constructor; [done|]. by inversion Hhd.
Qed.

Lemma Sorted_sortInsert `{!Total R} x l : Sorted R l -> Sorted R (sortInsert R x l).
Proof.
  induction 1 as [|y l Hl IH Hhd]; cbn.
  - by repeat constructor.
  - case_decide as Hxy.
    + constructor; [by constructor|]. by constructor.
    + constructor; [done|]. apply HdRel_sortInsert; [|done].
      by destruct (total R x y).
Qed.

Lemma Sorted_sortBy `{!Total R} l : Sorted R (sortBy R l).
Proof.
  induction l as [|x l IH]; cbn; [constructor|]. by apply Sorted_sortInsert.
Qed.

End Sorting.

Section SortingAgreement.
Import Run.
Context {A : Type} (R R' : relation A)
  `{forall x y, Decision (R x y)} `{forall x y, Decision (R' x y)}.

Lemma sortInsert_agree x l :
  (forall y, y ∈ l -> R x y <-> R' x y) -> sortInsert R x l = sortInsert R' x l.
Proof.
  induction l as [|y l IH]; intros Hagree; cbn; [done|].
  assert (R x y <-> R' x y) as Hxy by (apply Hagree; by left).
  rewrite IH by (intros; apply Hagree; by right).
  destruct (decide (R x y)), (decide (R' x y)); tauto || done.
Qed.

(** Two comparators that agree on the members of a list sort it alike. *)
Lemma sortBy_agree l :
  (forall a b, a ∈ l -> b ∈ l -> R a b <-> R' a b) -> sortBy R l = sortBy R' l.
Proof.
  induction l as [|x l IH]; intros Hagree; cbn; [done|].
  fold (sortBy R l) (sortBy R' l).
  rewrite IH by (intros; apply Hagree; by right).
  apply sortInsert_agree. intros y Hy. rewrite sortBy_Permutation in Hy.
  apply Hagree; [by left|by right].
Qed.

End SortingAgreement.

Section AbiCanonicalizer.
Import Run.

Implicit Types (names : list (option string)) (k : string) (abi : list AbiEntry).

(** The key under which [functionIndexes] is asked for an entry. *)
Definition entryKey (e : AbiEntry) : string := JsObject.propertyKey (abiName e).

Lemma functionIndexesOf_snoc names name :
  functionIndexesOf (names ++ [name])
  = JsObject.assign (functionIndexesOf names)
      {[ JsObject.propertyKey name := List.length names ]}.
Proof.
  unfold functionIndexesOf. rewrite imap_app, foldl_app. cbn.
  by rewrite Nat.add_0_r.
Qed.

Lemma lookup_functionIndexesOf_snoc names name k :
  functionIndexesOf (names ++ [name]) !! k =
    if decide (k = "__proto__") then None
    else if decide (k = JsObject.propertyKey name) then Some (List.length names)
    else functionIndexesOf names !! k.
Proof.
  rewrite functionIndexesOf_snoc, lookup_assign.
  destruct (decide (k = "__proto__")); [done|].
  destruct (decide (k = JsObject.propertyKey name)) as [->|Hne].
  - erewrite lookup_union_Some_l; [done|]. apply lookup_singleton_eq.
  - rewrite lookup_union_r; [done|]. by apply lookup_singleton_ne.
Qed.

(** The map sends a name to the index of a function definition of that name
    (the last one, when several share it). *)
Lemma functionIndexesOf_Some names k i :
  functionIndexesOf names !! k = Some i ->
  k <> "__proto__" /\ JsObject.propertyKey <$> names !! i = Some k.
Proof.
  revert i. induction names as [|name names IH] using rev_ind; intros i.
  - unfold functionIndexesOf. cbn. by rewrite lookup_empty.
  - rewrite lookup_functionIndexesOf_snoc.
    destruct (decide (k = "__proto__")); [done|].
    destruct (decide (k = JsObject.propertyKey name)) as [->|Hne].
    + intros [= <-]. split; [done|].
      by rewrite lookup_app_r, Nat.sub_diag by lia.
    + intros Hi. destruct (IH i Hi) as [_ Hlook]. split; [done|].
      destruct (names !! i) as [found|] eqn:Hfound; [|done].
      by rewrite (lookup_app_l_Some _ _ _ _ Hfound).
Qed.

Lemma functionIndexesOf_is_Some names k :
  is_Some (functionIndexesOf names !! k)
  <-> k <> "__proto__" /\ k ∈ map JsObject.propertyKey names.
Proof.
  induction names as [|name names IH] using rev_ind.
  - unfold functionIndexesOf. cbn. rewrite lookup_empty. split.
    + by intros [? ?].
    + intros [_ Hin]. by apply elem_of_nil in Hin.
  - rewrite lookup_functionIndexesOf_snoc, map_app, elem_of_app. cbn [map].
    rewrite list_elem_of_singleton.
    destruct (decide (k = "__proto__")).
    { split; [by intros [? ?]|by intros [? _]]. }
    destruct (decide (k = JsObject.propertyKey name)) as [->|Hne].
    + split; [intros _; split; [done|by right]|by eexists].
    + rewrite IH. tauto.
Qed.

(** A key that [Object.prototype] does not define is found exactly when it
    is an own property. *)
Lemma get_own_only {V : Type} (o : gmap string V) k :
  k ∉ JsObject.objectPrototypeKeys -> JsObject.get o k = JsObject.Own <$> o !! k.
Proof.
  intros Hk. unfold JsObject.get. destruct (o !! k); [done|].
  by rewrite decide_False.
Qed.

#[global] Instance comesBefore_total functionIndexes :
  Total (comesBefore functionIndexes).
Proof.
  intros a b. unfold comesBefore, compareIndexes.
  destruct (JsObject.get functionIndexes _) as [[i|]|],
           (JsObject.get functionIndexes _) as [[j|]|]; lia.
Qed.

(** The contract definition that [orderABI] picks. *)
Definition contractDefinitionOf (contractName : string) (ast : Ast) : option AstNode :=
  head (filter (fun n => nodeType n = "ContractDefinition" /\ name n = Some contractName)
               (astNodes ast)).

(** The function names of a contract definition, in source order. *)
Definition functionNamesOf (members : list MemberNode) : list (option string) :=
  map memberName (filter (fun m => memberNodeType m = "FunctionDefinition") members).

Lemma orderABI_unchanged abi contractName ast :
  contractDefinitionOf contractName ast = None
  \/ (exists definition, contractDefinitionOf contractName ast = Some definition
                         /\ nodes definition = None) ->
  orderABI abi contractName ast = abi.
Proof.
  unfold contractDefinitionOf, orderABI.
  intros [->|(definition & -> & ->)]; reflexivity.
Qed.

(** The declaration index of the function an entry is named after. *)
Definition declarationIndex (functionIndexes : gmap string nat) (e : AbiEntry) : nat :=
  default 0 (functionIndexes !! entryKey e).

(** A contract that inherits a public [toString], declares an event and an
    internal function [mint]. *)
Definition inheritedToString : AbiEntry :=
  {| abiType := "function"; abiName := Some "toString"; abiRest := "(uint256)" |}.

Definition transferEvent : AbiEntry :=
  {| abiType := "event"; abiName := Some "Transfer"; abiRest := "(address,address,uint256)" |}.

Definition tokenAst : Ast :=
  {| astNodes :=
       [ {| nodeType := "PragmaDirective"; name := None; nodes := None |};
         {| nodeType := "ContractDefinition"; name := Some "Token";
            nodes := Some [ {| memberNodeType := "EventDefinition";
                               memberName := Some "Transfer" |};
                            {| memberNodeType := "FunctionDefinition";
                               memberName := Some "mint" |} ] |} ] |}.

(** The ordering in the words of the specification: membership is presence
    in the name to index map. *)
Definition byDeclarationIndex (functionIndexes : gmap string nat)
  : relation AbiEntry :=
  fun a b => declarationIndex functionIndexes a <= declarationIndex functionIndexes b.

#[global] Instance byDeclarationIndex_dec functionIndexes a b :
  Decision (byDeclarationIndex functionIndexes a b).
Proof. unfold byDeclarationIndex. apply _. Defined.

Definition specOrderABI (functionIndexes : gmap string nat) abi : list AbiEntry :=
  filter (fun e => functionIndexes !! entryKey e = None) abi
  ++ sortBy (byDeclarationIndex functionIndexes)
            (filter (fun e => functionIndexes !! entryKey e <> None) abi).

(** When no entry is named after a property of [Object.prototype], the code
    computes the ordering of the specification. *)
Lemma orderABI_is_specOrderABI abi contractName ast definition members :
  contractDefinitionOf contractName ast = Some definition ->
  nodes definition = Some members ->
  Forall (fun e => entryKey e ∉ JsObject.objectPrototypeKeys) abi ->
  orderABI abi contractName ast
  = specOrderABI (functionIndexesOf (functionNamesOf members)) abi.
Proof.
  intros Hdef Hnodes Hplain. set (functionIndexes := functionIndexesOf _).
  unfold orderABI, specOrderABI. fold (contractDefinitionOf contractName ast).
  rewrite Hdef, Hnodes. fold (functionNamesOf members). fold functionIndexes.
  assert (forall e, e ∈ abi ->
            JsObject.get functionIndexes (entryKey e)
            = JsObject.Own <$> functionIndexes !! entryKey e) as Hget.
  { intros e He. apply get_own_only. by eapply Forall_forall in Hplain. }
  assert (filter (fun e => JsObject.get functionIndexes
                             (JsObject.propertyKey (abiName e)) = None) abi
          = filter (fun e => functionIndexes !! entryKey e = None) abi) as ->.
  { apply list_filter_iff_among. intros e He. fold (entryKey e).
    rewrite (Hget e He). by destruct (functionIndexes !! _). }
  assert (filter (fun e => JsObject.get functionIndexes
                             (JsObject.propertyKey (abiName e)) <> None) abi
          = filter (fun e => functionIndexes !! entryKey e <> None) abi) as ->.
  { apply list_filter_iff_among. intros e He. fold (entryKey e).
    rewrite (Hget e He). by destruct (functionIndexes !! _). }
  f_equal. apply sortBy_agree. intros a b Ha Hb.
  apply list_elem_of_filter in Ha as [Ha Ha'], Hb as [Hb Hb'].
  unfold comesBefore, compareIndexes, byDeclarationIndex, declarationIndex.
  fold (entryKey a) (entryKey b).
  rewrite (Hget a Ha'), (Hget b Hb').
  destruct (functionIndexes !! entryKey a), (functionIndexes !! entryKey b);
    cbn; try done. lia.
Qed.

#[global] Instance byDeclarationIndex_total functionIndexes :
  Total (byDeclarationIndex functionIndexes).
Proof. intros a b. unfold byDeclarationIndex. lia. Qed.

(** In particular the result is then the entries whose name is absent from
    the map, in their order, followed by a permutation of the entries whose
    name is in the map that is sorted by declaration index. *)
Lemma orderABI_by_presence abi contractName ast definition members :
  contractDefinitionOf contractName ast = Some definition ->
  nodes definition = Some members ->
  Forall (fun e => entryKey e ∉ JsObject.objectPrototypeKeys) abi ->
  let functionIndexes := functionIndexesOf (functionNamesOf members) in
  exists sorted,
    orderABI abi contractName ast
    = filter (fun e => functionIndexes !! entryKey e = None) abi ++ sorted
    /\ sorted ≡ₚ filter (fun e => functionIndexes !! entryKey e <> None) abi
    /\ Sorted (byDeclarationIndex functionIndexes) sorted.
Proof.
  intros Hdef Hnodes Hplain functionIndexes.
  rewrite (orderABI_is_specOrderABI _ _ _ _ _ Hdef Hnodes Hplain).
  eexists. split; [reflexivity|]. split.
  - apply sortBy_Permutation.
  - apply Sorted_sortBy. apply _.
Qed.

(** C4 on this contract: neither ABI entry is named in the map, which holds
    [mint] alone, and yet [toString] is moved behind the event, because
    [functionIndexes["toString"]] finds the method of [Object.prototype]. *)
Theorem orderABI_moves_inherited_name :
  functionNamesOf [ {| memberNodeType := "EventDefinition";
                       memberName := Some "Transfer" |};
                    {| memberNodeType := "FunctionDefinition";
                       memberName := Some "mint" |} ] = [Some "mint"]
  /\ functionIndexesOf [Some "mint"] !! "toString" = None
  /\ functionIndexesOf [Some "mint"] !! "Transfer" = None
  /\ specOrderABI (functionIndexesOf [Some "mint"]) [inheritedToString; transferEvent]
     = [inheritedToString; transferEvent]
  /\ JsObject.get (functionIndexesOf [Some "mint"]) "toString" = Some JsObject.Inherited
  /\ orderABI [inheritedToString; transferEvent] "Token" tokenAst
     = [transferEvent; inheritedToString].
Proof. repeat split; vm_compute; reflexivity. Qed.

Lemma orderABI_by_presence_witness :
  exists sorted,
    orderABI [transferEvent;
              {| abiType := "function"; abiName := Some "mint"; abiRest := "()" |}]
             "Token" tokenAst
    = filter (fun e => functionIndexesOf [Some "mint"] !! entryKey e = None)
             [transferEvent;
              {| abiType := "function"; abiName := Some "mint"; abiRest := "()" |}]
      ++ sorted
    /\ sorted ≡ₚ [{| abiType := "function"; abiName := Some "mint"; abiRest := "()" |}].
Proof.
  destruct (orderABI_by_presence
              [transferEvent;
               {| abiType := "function"; abiName := Some "mint"; abiRest := "()" |}]
              "Token" tokenAst _ _ eq_refl eq_refl) as (sorted & Heq & Hperm & _).
  { apply (bool_decide_unpack _). vm_compute. exact I. }
  exists sorted. split; [exact Heq|exact Hperm].
Defined.

End AbiCanonicalizer.

Section LegacyShim.

(** The artifact of the scenario: contract [Foo] with the resolved bytecode
    [0xdead]. *)
Definition fooArtifact : Artifact.t :=
  {| Artifact.contractName := "Foo";
     Artifact.sourcePath := "/contracts/Foo.sol";
     Artifact.source := "contract Foo {}";
     Artifact.sourceMap := "";
     Artifact.deployedSourceMap := "";
     Artifact.legacyAST := "{}";
     Artifact.ast := "{}";
     Artifact.abi := "[]";
     Artifact.metadata := "";
     Artifact.bytecode := Hex "0xdead";
     Artifact.deployedBytecode := Hex "0xbeef";
     Artifact.compiler := "solc";
     Artifact.devdoc := "{}";
     Artifact.userdoc := "{}" |}.

(** Without a receiver, [shimContract] cannot reach [shimBytecode]. *)
Lemma shimContract_without_receiver shimBytecode contract :
  shimContract shimBytecode GlobalObject contract = Throw TypeError.
Proof. reflexivity. Qed.

(** Hence [shimOutput], which hands [this.shimContract] to [map] as a bare
    function, throws on every list that is not empty, whatever
    [shimBytecode] does and whatever the receiver of [shimOutput] is. *)
Lemma shimOutput_throws shimBytecode this contract contracts sourceIndexes compilerInfo :
  shimOutput shimBytecode this (contract :: contracts) sourceIndexes compilerInfo
  = Throw TypeError.
Proof. by destruct this. Qed.

Lemma shimOutput_empty shimBytecode sourceIndexes compilerInfo :
  shimOutput shimBytecode ModuleExports [] sourceIndexes compilerInfo
  = Ok (∅, sourceIndexes, compilerInfo).
Proof. reflexivity. Qed.

(** C9 on the artifact of the scenario: both versions of [shimOutput], called
    on the exported object, throw a TypeError and produce no map. *)
Theorem shimOutput_Foo_throws :
  Shims.shimOutput ModuleExports [fooArtifact] "[]" "{}" = Throw TypeError
  /\ LegacyShims.shimOutput ModuleExports [fooArtifact] "[]" "{}" = Throw TypeError.
Proof. split; reflexivity. Qed.

(** Called on the exported object, the [shimContract] of the version with
    the identity [shimBytecode] yields the legacy artifact of the scenario. *)
Example shimContract_Foo :
  exists legacy,
    Shims.shimContract ModuleExports fooArtifact = Ok legacy
    /\ LegacyArtifact.contract_name legacy = "Foo"
    /\ LegacyArtifact.bytecode legacy = Hex "0xdead"
    /\ LegacyArtifact.unlinked_binary legacy = Hex "0xdead"
    /\ LegacyArtifact.deployedBytecode legacy = Hex "0xbeef".
Proof. eexists. repeat split. Qed.

(** The [shimBytecode] of the other version reads [bytes] off its argument,
    and a string has no such property. *)
Example legacy_shimContract_Foo :
  exists legacy,
    LegacyShims.shimContract ModuleExports fooArtifact = Ok legacy
    /\ LegacyArtifact.contract_name legacy = "Foo"
    /\ LegacyArtifact.bytecode legacy = Hex "0xundefined"
    /\ LegacyArtifact.unlinked_binary legacy = Hex "0xundefined".
Proof. eexists. repeat split. Qed.

End LegacyShim.

(** * Further properties of the path normaliser *)

Section PathNormalizerMore.
Import Run.

Implicit Types p r s : string.

(** Whether a character occurs in a string. *)
Fixpoint occurs (c : ascii) s : bool :=
  match s with
  | EmptyString => false
  | String a s' => Ascii.eqb a c || occurs c s'
  end.

Lemma length_replaceAll c d s :
  String.length (JsString.replaceAll c d s) = String.length s.
Proof. induction s as [|a s IH]; cbn; [done|]. by rewrite IH. Qed.

Lemma occurs_replaceAll c d s :
  c <> d -> occurs c (JsString.replaceAll c d s) = false.
Proof.
  intros Hcd. induction s as [|a s IH]; cbn; [done|]. rewrite IH, orb_false_r.
  destruct (Ascii.eqb_spec a c) as [->|Hac].
  - by apply Ascii.eqb_neq.
  - by apply Ascii.eqb_neq.
Qed.

Lemma driveRewritten_cases r :
  (exists c rest, r = String c (String ":" rest)
                  /\ driveRewritten r = String "/" (String c rest))
  \/ driveRewritten r = r.
Proof.
  destruct r as [|c [|d rest]]; [by right..|].
  destruct (decide (d = ":"%char)) as [->|Hd].
  - left. by exists c, rest.
  - right. unfold driveRewritten.
    destruct d as [[] [] [] [] [] [] [] []]; try done.
Qed.

(** X1: normalisation keeps the length of the path: the slash put in front
    of a drive letter takes the place of the colon that is dropped. *)
Theorem getPortableSourcePath_length p :
  String.length (getPortableSourcePath p) = String.length p.
Proof.
  rewrite getPortableSourcePath_shape, <- (length_replaceAll "\" "/" p).
  destruct (driveRewritten_cases (JsString.replaceAll "\" "/" p))
    as [(c & rest & -> & ->)| ->]; done.
Qed.

(** Rewriting the drive letter brings no backslash back. *)
Lemma occurs_backslash_normalised p :
  occurs "\" (getPortableSourcePath p) = false.
Proof.
  rewrite getPortableSourcePath_shape.
  assert (Hr := occurs_replaceAll "\" "/" p ltac:(done)).
  destruct (driveRewritten_cases (JsString.replaceAll "\" "/" p))
    as [(c & rest & Heq & ->)| ->]; [|done].
  rewrite Heq in Hr. cbn in Hr |- *.
  apply orb_false_iff in Hr as [Hc Hrest]. by rewrite Hc, Hrest.
Qed.

(** X2: no backslash is left in a normalised path. *)
Theorem getPortableSourcePath_no_backslash p :
  occurs "\" (getPortableSourcePath p) = false.
Proof. apply occurs_backslash_normalised. Qed.

(** X3: normalisation is not injective: a path with a drive letter,
    [X:rest], and the path [/Xrest] have the same normal form. *)
Theorem getPortableSourcePath_collision (c : ascii) rest :
  c <> ":"%char ->
  getPortableSourcePath (String c (String ":" rest))
  = getPortableSourcePath (String "/" (String c rest)).
Proof.
  intros Hc. rewrite !getPortableSourcePath_shape. cbn [JsString.replaceAll].
  set (c' := if Ascii.eqb c "\" then "/"%char else c).
  assert (c' <> ":"%char) as Hc'.
  { unfold c'. by destruct (Ascii.eqb c "\"). }
  change (if Ascii.eqb ":" "\" then "/"%char else ":"%char) with ":"%char.
  change (if Ascii.eqb "/" "\" then "/"%char else "/"%char) with "/"%char.
  cbn [driveRewritten]. clearbody c'.
  destruct c' as [[] [] [] [] [] [] [] []]; done.
Qed.

Lemma getPortableSourcePath_collision_witness :
  getPortableSourcePath "C:\contracts\Token.sol"
  = getPortableSourcePath "/C\contracts\Token.sol".
Proof. apply (getPortableSourcePath_collision "C" "\contracts\Token.sol"). discriminate. Defined.

End PathNormalizerMore.

(** * Merging one-property objects *)

Section LastWith.
Context {A : Type} (P : A -> Prop) `{forall x, Decision (P x)}.

(** The last member of a list with a given property. *)
Definition lastWith (l : list A) : option A :=
  foldl (fun found x => if decide (P x) then Some x else found) None l.

Lemma lastWith_snoc l x :
  lastWith (l ++ [x]) = if decide (P x) then Some x else lastWith l.
Proof. unfold lastWith. by rewrite foldl_app. Qed.

Lemma lastWith_Some l x : lastWith l = Some x -> x ∈ l /\ P x.
Proof.
  induction l as [|y l IH] using rev_ind; [done|].
  rewrite lastWith_snoc, elem_of_app, list_elem_of_singleton.
  case_decide as Hy.
  - intros [= ->]. auto.
  - intros Hl. destruct (IH Hl). auto.
Qed.

Lemma lastWith_None l : lastWith l = None <-> Forall (fun x => ~ P x) l.
Proof.
  induction l as [|y l IH] using rev_ind.
  - split; [constructor|done].
  - rewrite lastWith_snoc, Forall_app, Forall_singleton. case_decide as Hy.
    + split; [done|]. by intros [_ ?].
    + rewrite IH. tauto.
Qed.

Lemma lastWith_app_cons l1 x l2 :
  P x -> Forall (fun y => ~ P y) l2 -> lastWith (l1 ++ x :: l2) = Some x.
Proof.
  intros Hx. induction l2 as [|y l2 IH] using rev_ind; intros Hl2.
  - by rewrite lastWith_snoc, decide_True.
  - apply Forall_app in Hl2 as [Hl2 Hy]. rewrite Forall_singleton in Hy.
    change (l1 ++ x :: l2 ++ [y]) with (l1 ++ (x :: l2) ++ [y]).
    rewrite (assoc_L (++)), lastWith_snoc, decide_False by done. by apply IH.
Qed.

End LastWith.

Section MergedMap.
Context {A V : Type} (key : A -> string) (value : A -> V).

(** The object that [map] and [reduce] build from a list, one property for
    each member: a later member overwrites an earlier one with the same key,
    and a key spelled [__proto__] leaves no property. *)
Lemma lookup_merged_map (l : list A) (k : string) :
  foldl JsObject.assign ∅ (map (fun x => {[ key x := value x ]}) l) !! k =
    if decide (k = "__proto__") then None
    else value <$> lastWith (fun x => key x = k) l.
Proof.
  induction l as [|x l IH] using rev_ind.
  - cbn. rewrite lookup_empty. by case_decide.
  - rewrite map_app, foldl_app. cbn [map foldl].
    rewrite lookup_assign, lastWith_snoc.
    destruct (decide (k = "__proto__")) as [Hk|Hk]; [done|].
    destruct (decide (key x = k)) as [<-|Hne].
    + by erewrite lookup_union_Some_l by apply lookup_singleton_eq.
    + rewrite lookup_union_r by (by apply lookup_singleton_ne). exact IH.
Qed.

End MergedMap.

(** * Properties of collectSources *)

Section CollectSources.
Import Run.

Implicit Types (originalSources : list (string * string))
               (originalTargets : option (list string)).

(** The reduction of [collectSources], started from any accumulator. *)
Lemma collectSources_fold (wanted : list string) originalSources (accumulator : Collected) :
  foldl (fun accumulator result =>
           {| sources := JsObject.assign (sources accumulator) (sources result);
              targets := targets accumulator ++ targets result;
              originalSourcePaths :=
                JsObject.assign (originalSourcePaths accumulator)
                                (originalSourcePaths result) |})
        accumulator
        (map (fun '(originalSourcePath, contents, sourcePath) =>
                {| sources := {[ sourcePath := contents ]};
                   targets := if decide (originalSourcePath ∈ wanted)
                              then [sourcePath] else [];
                   originalSourcePaths := {[ sourcePath := originalSourcePath ]} |})
             (map (fun '(originalSourcePath, contents) =>
                     (originalSourcePath, contents,
                      getPortableSourcePath originalSourcePath))
                  originalSources))
  = {| sources :=
         foldl JsObject.assign (sources accumulator)
               (map (fun entry => {[ getPortableSourcePath entry.1 := entry.2 ]})
                    originalSources);
       targets :=
         targets accumulator
         ++ map getPortableSourcePath
                (filter (fun path => path ∈ wanted) (map fst originalSources));
       originalSourcePaths :=
         foldl JsObject.assign (originalSourcePaths accumulator)
               (map (fun entry => {[ getPortableSourcePath entry.1 := entry.1 ]})
                    originalSources) |}.
Proof.
  revert accumulator.
  induction originalSources as [|[path contents] originalSources IH];
    intros accumulator.
  - cbn. rewrite app_nil_r. by destruct accumulator.
  - cbn [map foldl]. rewrite IH. cbn [sources targets originalSourcePaths fst snd].
    f_equal. rewrite filter_cons. cbn [fst].
    case_decide; cbn [map]; by rewrite <- ?app_assoc, ?app_nil_r.
Qed.

Lemma collectSources_fields originalSources originalTargets :
  collectSources originalSources originalTargets
  = {| sources :=
         foldl JsObject.assign ∅
               (map (fun entry => {[ getPortableSourcePath entry.1 := entry.2 ]})
                    originalSources);
       targets :=
         map getPortableSourcePath
             (filter (fun path => path ∈ default [] originalTargets)
                     (map fst originalSources));
       originalSourcePaths :=
         foldl JsObject.assign ∅
               (map (fun entry => {[ getPortableSourcePath entry.1 := entry.1 ]})
                    originalSources) |}.
Proof. unfold collectSources. cbn zeta. by rewrite collectSources_fold. Qed.

(** The entry of the sources that decides what stands under a key: the last
    one whose path has that normal form. *)
Definition decidingEntry (k : string) originalSources : option (string * string) :=
  lastWith (fun entry => getPortableSourcePath entry.1 = k) originalSources.

Lemma lookup_collected originalSources originalTargets k :
  let collected := collectSources originalSources originalTargets in
  sources collected !! k
    = (if decide (k = "__proto__") then None
       else snd <$> decidingEntry k originalSources)
  /\ originalSourcePaths collected !! k
    = (if decide (k = "__proto__") then None
       else fst <$> decidingEntry k originalSources).
Proof.
  cbn zeta. rewrite collectSources_fields. cbn [sources originalSourcePaths].
  split; apply (lookup_merged_map (fun entry => getPortableSourcePath entry.1)).
Qed.

(** X4: the targets returned are the normal forms of the source paths that
    are named as targets, in the order of the sources; a target that names no
    source is dropped, and without targets the list is empty. *)
Theorem collectSources_targets originalSources originalTargets :
  targets (collectSources originalSources originalTargets)
  = map getPortableSourcePath
        (filter (fun path => path ∈ default [] originalTargets)
                (map fst originalSources)).
Proof. by rewrite collectSources_fields. Qed.

(** X5: the sources and the reverse map are aligned. They have the same
    keys, and a key [k] of the reverse map leads to an original path whose
    normal form is [k] and whose contents, as given in the input, stand under
    [k] in the sources. *)
Theorem collectSources_aligned originalSources originalTargets :
  let collected := collectSources originalSources originalTargets in
  (forall k, is_Some (sources collected !! k)
             <-> is_Some (originalSourcePaths collected !! k))
  /\ (forall k original,
        originalSourcePaths collected !! k = Some original ->
        getPortableSourcePath original = k
        /\ exists contents,
             (original, contents) ∈ originalSources
             /\ sources collected !! k = Some contents).
Proof.
  cbn zeta. split.
  - intros k.
    destruct (lookup_collected originalSources originalTargets k) as [-> ->].
    case_decide; [done|]. by rewrite !fmap_is_Some.
  - intros k original.
    destruct (lookup_collected originalSources originalTargets k) as [-> ->].
    case_decide; [done|].
    destruct (decidingEntry k originalSources) as [[path contents]|] eqn:Hlast;
      [|done].
    intros [= <-]. apply lastWith_Some in Hlast as [Hin Hk].
    split; [done|]. by exists contents.
Qed.

(** X6: no source is lost unless a later one takes its key: the last source
    whose path has a given normal form stands under that normal form, in both
    maps, provided the normal form is not [__proto__]. *)
Theorem collectSources_last_wins before path contents after originalTargets :
  getPortableSourcePath path <> "__proto__" ->
  Forall (fun entry => getPortableSourcePath entry.1 <> getPortableSourcePath path)
         after ->
  let collected :=
    collectSources (before ++ (path, contents) :: after) originalTargets in
  sources collected !! getPortableSourcePath path = Some contents
  /\ originalSourcePaths collected !! getPortableSourcePath path = Some path.
Proof.
  intros Hproto Hafter. cbn zeta.
  destruct (lookup_collected (before ++ (path, contents) :: after) originalTargets
              (getPortableSourcePath path)) as [-> ->].
  unfold decidingEntry.
  rewrite lastWith_app_cons; [|done|exact Hafter].
  destruct (decide (getPortableSourcePath path = "__proto__")); done.
Qed.

Lemma collectSources_last_wins_witness :
  let collected :=
    collectSources [("C:\a\Token.sol", "contract Token {}");
                    ("/C/a/Token.sol", "contract Other {}");
                    ("b\Lib.sol", "library Lib {}")] None in
  sources collected !! "/C/a/Token.sol" = Some "contract Other {}"
  /\ originalSourcePaths collected !! "/C/a/Token.sol" = Some "/C/a/Token.sol".
Proof.
  apply (collectSources_last_wins
           [("C:\a\Token.sol", "contract Token {}")]
           "/C/a/Token.sol" "contract Other {}"
           [("b\Lib.sol", "library Lib {}")] None).
  - discriminate.
  - repeat constructor. discriminate.
Defined.

End CollectSources.

(** * Properties of the compiler input *)

Section CompilerInput.
Import Run.

Lemma lastWith_map_to_list {V : Type} (m : gmap string V) (k : string) :
  lastWith (fun entry : string * V => entry.1 = k) (map_to_list m)
  = (fun v => (k, v)) <$> m !! k.
Proof.
  destruct (lastWith _ _) as [[k' v]|] eqn:Hlast.
  - apply lastWith_Some in Hlast as [Hin Hk]. cbn in Hk. subst k'.
    apply elem_of_map_to_list in Hin. by rewrite Hin.
  - apply lastWith_None in Hlast. destruct (m !! k) as [v|] eqn:Hm; [|done].
    apply elem_of_map_to_list in Hm.
    by eapply Forall_forall in Hlast; [|exact Hm].
Qed.

Lemma lookup_prepareSources (collected : gmap string string) (k : string) :
  prepareSources collected !! k
  = if decide (k = "__proto__") then None
    else (fun text => {| content := text |}) <$> collected !! k.
Proof.
  unfold prepareSources.
  rewrite (map_ext _ (fun entry : string * string =>
                        {[ entry.1 := {| content := entry.2 |} ]}))
    by (by intros [? ?]).
  rewrite (lookup_merged_map fst (fun entry => {| content := entry.2 |})).
  case_decide; [done|]. rewrite lastWith_map_to_list.
  by destruct (collected !! k).
Qed.

(** The compiler input that [run] builds from the raw sources. *)
Definition compilerInputOf (rawSources : list (string * string))
    (compilationTargets : option (list string)) (settings : SolcSettings)
  : CompilerInput :=
  let collected := collectSources rawSources compilationTargets in
  prepareCompilerInput (sources collected) (targets collected) settings.

(** X7: every source of the compiler input stands under a key without
    backslash, the normal form of the path of a raw source, and holds the
    contents of that raw source. *)
Theorem compilerInput_sources rawSources compilationTargets settings k source :
  inputSources (compilerInputOf rawSources compilationTargets settings) !! k
    = Some source ->
  occurs "\" k = false
  /\ exists path, (path, content source) ∈ rawSources
                  /\ getPortableSourcePath path = k.
Proof.
  unfold compilerInputOf, prepareCompilerInput. cbn [inputSources].
  rewrite lookup_prepareSources. case_decide; [done|].
  destruct (sources _ !! k) as [text|] eqn:Htext; [|done]. intros [= <-].
  cbn [content].
  destruct (lookup_collected rawSources compilationTargets k) as [Hsources _].
  cbn zeta in Hsources. rewrite Hsources in Htext.
  destruct (decide (k = "__proto__")); [done|].
  destruct (decidingEntry k rawSources) as [[path contents]|] eqn:Hlast; [|done].
  injection Htext as <-. apply lastWith_Some in Hlast as [Hin Hk]. cbn [fst] in Hk.
  split; [|by exists path].
  rewrite <- Hk. apply occurs_backslash_normalised.
Qed.

Lemma compilerInput_sources_witness :
  occurs "\" "/C/a/Token.sol" = false
  /\ exists path, (path, "contract Token {}") ∈ [("C:\a\Token.sol", "contract Token {}")]
                  /\ getPortableSourcePath path = "/C/a/Token.sol".
Proof.
  apply (compilerInput_sources [("C:\a\Token.sol", "contract Token {}")] None
           {| evmVersion := "byzantium"; optimizer := "{}" |}
           "/C/a/Token.sol" {| content := "contract Token {}" |}).
  vm_compute. reflexivity.
Defined.

(** X8: when no raw source is named as a target, also when targets are
    given and match none, the whole selector set is requested for every
    file. *)
Theorem compilerInput_selects_all rawSources compilationTargets settings :
  Forall (fun entry => entry.1 ∉ default [] compilationTargets) rawSources ->
  outputSelection
    (inputSettings (compilerInputOf rawSources compilationTargets settings))
  = {[ "*" := defaultSelectors ]}.
Proof.
  intros Hnone. unfold compilerInputOf, prepareCompilerInput.
  cbn [inputSettings outputSelection].
  rewrite collectSources_fields. cbn [targets].
  assert (filter (fun path => path ∈ default [] compilationTargets)
                 (map fst rawSources) = []) as ->; [|done].
  induction Hnone as [|[path contents] rawSources Hpath _ IH]; [done|].
  cbn [map fst]. by rewrite filter_cons_False.
Qed.

Lemma compilerInput_selects_all_witness :
  outputSelection
    (inputSettings
       (compilerInputOf [("a.sol", "contract A {}")] (Some ["missing.sol"])
          {| evmVersion := "byzantium"; optimizer := "{}" |}))
  = {[ "*" := defaultSelectors ]}.
Proof.
  apply compilerInput_selects_all.
  apply (bool_decide_unpack _). vm_compute. exact I.
Defined.

(** X9: when some raw source is named as a target, the files for which
    outputs are requested are the normal forms of the raw sources that are
    targets, each with the whole selector set. *)
Theorem compilerInput_selects_targets rawSources compilationTargets settings file :
  Exists (fun entry => entry.1 ∈ default [] compilationTargets) rawSources ->
  file <> "__proto__" ->
  let selection :=
    outputSelection
      (inputSettings (compilerInputOf rawSources compilationTargets settings)) in
  (selection !! file = Some defaultSelectors
   <-> exists entry, entry ∈ rawSources
                     /\ entry.1 ∈ default [] compilationTargets
                     /\ getPortableSourcePath entry.1 = file)
  /\ (selection !! file = None \/ selection !! file = Some defaultSelectors).
Proof.
  intros Hsome Hproto. unfold compilerInputOf, prepareCompilerInput.
  cbn [inputSettings outputSelection]. cbn zeta.
  rewrite lookup_prepareOutputSelection, collectSources_fields. cbn [targets].
  cbn [default id].
  set (wanted := filter _ (map fst rawSources)).
  assert (forall path, path ∈ wanted
            <-> exists entry, entry ∈ rawSources
                  /\ entry.1 ∈ default [] compilationTargets /\ entry.1 = path)
    as Hwanted.
  { intros path. unfold wanted. rewrite list_elem_of_filter, list_elem_of_fmap.
    split.
    - intros (Hin & entry & -> & Hentry). by exists entry.
    - intros (entry & Hentry & Hin & <-). split; [done|]. by exists entry. }
  assert (wanted <> []) as Hne.
  { apply Exists_exists in Hsome as (entry & Hentry & Hin).
    intros Hnil. assert (entry.1 ∈ wanted) as Hw by (apply Hwanted; by exists entry).
    rewrite Hnil in Hw. by apply elem_of_nil in Hw. }
  destruct (map getPortableSourcePath wanted) as [|first others] eqn:Hmap.
  { by destruct wanted. }
  rewrite <- Hmap. split; [|case_decide; auto].
  case_decide as Hin.
  - split; [intros _|done]. destruct Hin as [Hin _].
    apply list_elem_of_fmap in Hin as (path & -> & Hpath).
    apply Hwanted in Hpath as (entry & ? & ? & <-). by exists entry.
  - split; [done|]. intros (entry & Hentry & Hw & Hfile). destruct Hin.
    split; [|done]. apply list_elem_of_fmap. exists entry.1. split; [done|].
    apply Hwanted. by exists entry.
Qed.

Lemma compilerInput_selects_targets_witness :
  let selection :=
    outputSelection
      (inputSettings
         (compilerInputOf [("C:\a\Token.sol", "contract Token {}");
                           ("C:\a\Lib.sol", "library Lib {}")]
            (Some ["C:\a\Token.sol"])
            {| evmVersion := "byzantium"; optimizer := "{}" |})) in
  (selection !! "/C/a/Lib.sol" = Some defaultSelectors
   <-> exists entry, entry ∈ [("C:\a\Token.sol", "contract Token {}");
                              ("C:\a\Lib.sol", "library Lib {}")]
                     /\ entry.1 ∈ ["C:\a\Token.sol"]
                     /\ getPortableSourcePath entry.1 = "/C/a/Lib.sol")
  /\ (selection !! "/C/a/Lib.sol" = None
      \/ selection !! "/C/a/Lib.sol" = Some defaultSelectors).
Proof.
  apply (compilerInput_selects_targets
           [("C:\a\Token.sol", "contract Token {}");
            ("C:\a\Lib.sol", "library Lib {}")]
           (Some ["C:\a\Token.sol"])
           {| evmVersion := "byzantium"; optimizer := "{}" |} "/C/a/Lib.sol").
  - apply Exists_cons_hd. by left.
  - discriminate.
Defined.

End CompilerInput.

(** * Further properties of the diagnostics gate *)

Section JoinFacts.

Lemma concat_comma_empty (l : list string) :
  String.concat "," l = "" <-> l = [] \/ l = [""].
Proof.
  destruct l as [|x [|y l]]; cbn.
  - split; auto.
  - split; [intros ->; auto|]. by intros [?|[= ->]].
  - split; [by destruct x|]. by intros [?|?].
Qed.

Lemma join_empty (xs : list (option string)) :
  JsString.join xs = ""
  <-> xs = [] \/ exists x, xs = [x] /\ default "" x = "".
Proof.
  unfold JsString.join. rewrite concat_comma_empty. split.
  - intros [Hnil|Hone].
    + left. by destruct xs.
    + right. destruct xs as [|x [|y xs]]; try done.
      injection Hone as Hx. by exists x.
  - intros [->|(x & -> & Hx)]; [by left|]. right. cbn. by rewrite Hx.
Qed.

Lemma join_nonempty (xs : list (option string)) (m : string) :
  Some m ∈ xs -> m <> "" -> JsString.join xs <> "".
Proof.
  intros Hin Hm Hjoin. apply join_empty in Hjoin as [->|(x & -> & Hx)].
  - by apply elem_of_nil in Hin.
  - apply list_elem_of_singleton in Hin as <-. done.
Qed.

End JoinFacts.

Section DiagnosticsMore.
Import Run.
Variable EOL : string.

(** The diagnostics that count as errors. *)
Definition blocking (diagnostics : list Diagnostic) (options : Options)
  : list Diagnostic :=
  if strict options then diagnostics
  else filter (fun d => severity d <> "warning") diagnostics.

Lemma joinedErrors_blocking diagnostics options :
  joinedErrors diagnostics options = joinedMessages (blocking diagnostics options).
Proof. reflexivity. Qed.

Lemma runDiagnostics_outcome outputErrors options :
  (runDiagnostics EOL outputErrors options).2
  = match detectErrors EOL outputErrors options with
    | Throw e => Throw e
    | Ok (_, errors) =>
        if 0 <? String.length errors then Throw (CompileError errors) else Ok tt
    end.
Proof.
  unfold runDiagnostics. destruct (detectErrors _ _ _) as [[warnings errors]|e];
    [|done].
  by destruct (0 <? String.length errors).
Qed.

Lemma includes_empty sub : sub <> "" -> JsString.includes "" sub = false.
Proof. by destruct sub. Qed.

Lemma runDiagnostics_passes_iff outputErrors options :
  (runDiagnostics EOL outputErrors options).2 = Ok tt
  <-> joinedErrors (default [] outputErrors) options = "".
Proof.
  rewrite runDiagnostics_outcome, detectErrors_cases. cbn zeta.
  set (errors := joinedErrors _ _). split.
  - destruct (JsString.includes errors versionMismatch).
    + destruct (matchPragma errors); [|done].
      destruct (truthy _); [|done].
      destruct (0 <? String.length _) eqn:Hlen; [done|]. intros _.
      apply length_zero in Hlen. by destruct errors.
    + destruct (0 <? String.length errors) eqn:Hlen; [done|]. intros _.
      by apply length_zero.
  - intros ->. reflexivity.
Qed.

(** X10: the run goes on after the diagnostics exactly when nothing blocks
    it: no diagnostic counts as an error, or a single one does and its
    message is empty or absent. *)
Theorem runDiagnostics_passes_exactly outputErrors options :
  (runDiagnostics EOL outputErrors options).2 = Ok tt
  <-> blocking (default [] outputErrors) options = []
      \/ exists d, blocking (default [] outputErrors) options = [d]
                   /\ default "" (formattedMessage d) = "".
Proof.
  rewrite runDiagnostics_passes_iff, joinedErrors_blocking.
  unfold joinedMessages. rewrite join_empty.
  set (l := blocking _ _). split.
  - intros [Hnil|(x & Hone & Hx)].
    + left. by destruct l.
    + right. destruct l as [|d [|d' l]]; try done.
      injection Hone as <-. by exists d.
  - intros [->|(d & -> & Hd)]; [by left|]. right. by eexists.
Qed.

(** X11: a quiet run logs nothing, and [quiet] changes nothing else: the run
    goes on or is aborted, with the same exception, as when it is not
    quiet. *)
Theorem quiet_only_silences outputErrors (s : bool) (v : option string) :
  (runDiagnostics EOL outputErrors {| strict := s; quiet := true; solcVersion := v |}).1
    = []
  /\ (runDiagnostics EOL outputErrors {| strict := s; quiet := true; solcVersion := v |}).2
     = (runDiagnostics EOL outputErrors {| strict := s; quiet := false; solcVersion := v |}).2.
Proof.
  split.
  - unfold runDiagnostics.
    destruct (detectErrors _ _ _) as [[warnings errors]|e]; [|done].
    cbn [quiet negb]. rewrite andb_false_r.
    by destruct (0 <? String.length errors).
  - by rewrite !runDiagnostics_outcome, !detectErrors_cases.
Qed.

Lemma aborted_iff outputErrors options :
  (exists e, (runDiagnostics EOL outputErrors options).2 = Throw e)
  <-> joinedErrors (default [] outputErrors) options <> "".
Proof.
  rewrite <- runDiagnostics_passes_iff.
  destruct (runDiagnostics EOL outputErrors options).2 as [[]|e]; split;
    try done.
  - by intros [? ?].
  - by eexists.
Qed.

(** X12: strict mode only adds failures: a run that is aborted when it is
    not strict is aborted when it is strict. *)
Theorem strict_aborts_more outputErrors q v :
  (exists e, (runDiagnostics EOL outputErrors
                {| strict := false; quiet := q; solcVersion := v |}).2 = Throw e) ->
  exists e, (runDiagnostics EOL outputErrors
               {| strict := true; quiet := q; solcVersion := v |}).2 = Throw e.
Proof.
  rewrite !aborted_iff, !joinedErrors_blocking. unfold joinedMessages, blocking.
  cbn [strict]. set (diagnostics := default [] outputErrors).
  intros Hlenient Hstrict. apply Hlenient. clear Hlenient.
  apply join_empty in Hstrict as [Hnil|(x & Hone & Hx)].
  - apply fmap_nil_inv in Hnil. by rewrite Hnil.
  - destruct diagnostics as [|d [|d' l]]; try done.
    injection Hone as <-. rewrite filter_cons. case_decide; [|done].
    apply join_empty. right. by exists (formattedMessage d).
Qed.

(** X13: a diagnostic that is not a warning and has a message aborts the
    run, whatever the options are. *)
Theorem error_diagnostic_aborts diagnostics options (d : Diagnostic) (m : string) :
  d ∈ diagnostics ->
  severity d <> "warning" ->
  formattedMessage d = Some m ->
  m <> "" ->
  exists e, (runDiagnostics EOL (Some diagnostics) options).2 = Throw e.
Proof.
  intros Hin Hseverity Hmessage Hm. apply aborted_iff. cbn [default id].
  rewrite joinedErrors_blocking. unfold joinedMessages.
  apply (join_nonempty _ m); [|done]. rewrite <- Hmessage.
  apply list_elem_of_fmap. exists d. split; [done|].
  unfold blocking. destruct (strict options); [done|].
  by apply list_elem_of_filter.
Qed.

(** X14: the message of a CompileError is not empty, and it is the joined
    messages of all the diagnostics that count as errors, with nothing after
    them when they do not mention a version mismatch; when they do, they are
    followed by the note on the version mismatch, built from the configured
    version and the pragma found in the messages, and by nothing else. *)
Theorem compileError_carries_messages outputErrors options (message : string) :
  (runDiagnostics EOL outputErrors options).2 = Throw (CompileError message) ->
  let errors := joinedMessages (blocking (default [] outputErrors) options) in
  message <> ""
  /\ ((JsString.includes errors versionMismatch = false /\ message = errors)
      \/ (JsString.includes errors versionMismatch = true
          /\ exists contractSolcVer configSolcVer,
               matchPragma errors = Some contractSolcVer
               /\ truthy (solcVersion options) = Some configSolcVer
               /\ message
                  = errors +:+ versionNote EOL configSolcVer contractSolcVer)).
Proof.
  rewrite runDiagnostics_outcome, detectErrors_cases. cbn zeta.
  rewrite joinedErrors_blocking. set (errors := joinedMessages _).
  destruct (JsString.includes errors versionMismatch).
  - destruct (matchPragma errors) as [contractSolcVer|]; [|done].
    destruct (truthy _) as [configSolcVer|]; [|done].
    destruct (0 <? String.length _) eqn:Hlen; [|done]. intros [= <-].
    apply length_positive in Hlen. split; [done|].
    right. split; [done|]. by exists contractSolcVer, configSolcVer.
  - destruct (0 <? String.length errors) eqn:Hlen; [|done]. intros [= <-].
    apply length_positive in Hlen. split; [done|]. by left.
Qed.

End DiagnosticsMore.

Section DiagnosticsMoreExamples.
Import Run.

Definition undeclaredIdentifier : Diagnostic :=
  {| severity := "error";
     formattedMessage := Some "Token.sol:9:5: DeclarationError: Undeclared identifier." |}.

Lemma strict_aborts_more_witness :
  exists e, (runDiagnostics posixEOL (Some [unusedVariableWarning; undeclaredIdentifier])
               {| strict := true; quiet := false; solcVersion := None |}).2 = Throw e.
Proof.
  apply (strict_aborts_more posixEOL
           (Some [unusedVariableWarning; undeclaredIdentifier]) false None).
  eexists. vm_compute. reflexivity.
Defined.

Lemma error_diagnostic_aborts_witness :
  exists e, (runDiagnostics posixEOL (Some [unusedVariableWarning; undeclaredIdentifier])
               {| strict := false; quiet := true; solcVersion := None |}).2 = Throw e.
Proof.
  apply (error_diagnostic_aborts posixEOL
           [unusedVariableWarning; undeclaredIdentifier]
           {| strict := false; quiet := true; solcVersion := None |}
           undeclaredIdentifier
           "Token.sol:9:5: DeclarationError: Undeclared identifier.").
  - right. by left.
  - discriminate.
  - reflexivity.
  - discriminate.
Defined.

(** A mismatch reported with the offending line, among a warning, under a
    configured version: the message ends with the note. *)
Lemma compileError_carries_messages_witness :
  let options := {| strict := false; quiet := false; solcVersion := Some "0.5.0" |} in
  let errors := joinedMessages (blocking [unusedVariableWarning; quotedMismatch] options) in
  let message := errors +:+ versionNote posixEOL "0.5.0" "pragma solidity ^0.4.24" in
  message <> ""
  /\ ((JsString.includes errors versionMismatch = false /\ message = errors)
      \/ (JsString.includes errors versionMismatch = true
          /\ exists contractSolcVer configSolcVer,
               matchPragma errors = Some contractSolcVer
               /\ truthy (solcVersion options) = Some configSolcVer
               /\ message
                  = errors +:+ versionNote posixEOL configSolcVer contractSolcVer)).
Proof.
  intros options errors message.
  apply (compileError_carries_messages posixEOL
           (Some [unusedVariableWarning; quotedMismatch]) options message).
  vm_compute. reflexivity.
Defined.

End DiagnosticsMoreExamples.

(** * Further properties of the link-reference resolver *)

Section StringGet.
Implicit Types s t : string.

Lemma get_beyond s i : String.length s <= i -> String.get i s = None.
Proof.
  revert i. induction s as [|a s IH]; intros i Hi; [by destruct i|].
  destruct i as [|i]; cbn in *; [lia|]. apply IH. lia.
Qed.

Lemma get_app_l s t i :
  i < String.length s -> String.get i (s +:+ t) = String.get i s.
Proof. intros Hi. symmetry. by apply String.append_correct1. Qed.

Lemma get_app_r s t i :
  String.get (String.length s + i) (s +:+ t) = String.get i t.
Proof. rewrite Nat.add_comm. symmetry. apply String.append_correct2. Qed.

Lemma get_substring_0 s n i :
  i < n -> String.get i (String.substring 0 n s) = String.get i s.
Proof. intros Hi. rewrite String.substring_correct1 by done. by rewrite Nat.add_0_r. Qed.

Lemma get_suffixFrom s n i :
  String.get i (suffixFrom n s) = String.get (i + n) s.
Proof.
  unfold suffixFrom. destruct (decide (i < String.length s - n)) as [Hi|Hi].
  - by apply String.substring_correct1.
  - rewrite String.substring_correct2 by lia. symmetry. apply get_beyond. lia.
Qed.

End StringGet.

Section SplicedCharacters.
Import Run.

Implicit Types (bytecode linkId libraryName : string) (ref : LinkReference.t).

(** The character offset of a reference, and the positions of its slot. *)
Definition slotStart ref : nat := Z.to_nat (LinkReference.start ref * 2).

Definition covers (i : nat) ref : Prop := slotStart ref <= i < slotStart ref + 40.

#[global] Instance covers_dec i ref : Decision (covers i ref).
Proof. unfold covers. apply _. Defined.

(** The token of a library, as [replaceLinkReferences] builds it. *)
Definition linkIdOf libraryName : string :=
  JsString.padUnderscores 40 ("__" +:+ libraryName).

Lemma get_spliced bytecode linkId ref i :
  slotInside (String.length bytecode) ref ->
  String.length linkId = 40 ->
  String.get i (spliced bytecode linkId ref)
  = if decide (covers i ref) then String.get (i - slotStart ref) linkId
    else String.get i bytecode.
Proof.
  intros Hin Hid. rewrite spliced_inside by done. cbn zeta.
  fold (slotStart ref). set (n := slotStart ref).
  assert (n + 40 <= String.length bytecode) as Hn.
  { destruct Hin as [H0 H1]. unfold n, slotStart. lia. }
  assert (String.length (String.substring 0 n bytecode) = n) as Hbefore
    by (rewrite length_substring; lia).
  unfold covers. fold n. case_decide as Hi.
  - replace i with (String.length (String.substring 0 n bytecode) + (i - n)) at 1
      by lia.
    rewrite get_app_r, get_app_l by lia. done.
  - destruct (decide (i < n)) as [Hlt|Hge].
    + rewrite get_app_l by lia. by apply get_substring_0.
    + replace i with (String.length (String.substring 0 n bytecode) + (i - n)) at 1
        by lia.
      rewrite get_app_r.
      replace (i - n) with (String.length linkId + (i - n - 40)) by lia.
      rewrite get_app_r, get_suffixFrom. f_equal. lia.
Qed.

(** The slots of a reference structure, each with its library, in the order
    in which they are spliced. *)
Definition flatSlots (references : LinkReferences)
  : list (string * LinkReference.t) :=
  flat_map (fun libraryEntry : string * list LinkReference.t =>
              map (fun ref => (libraryEntry.1, ref)) libraryEntry.2)
           (concat (map snd references)).

Definition spliceAll bytecode (slots : list (string * LinkReference.t)) : string :=
  foldl (fun b slot => spliced b (linkIdOf slot.1) slot.2) bytecode slots.

Lemma replaceLinkReferences_spliceAll bytecode links libraryName :
  replaceLinkReferences bytecode links libraryName
  = spliceAll bytecode (map (fun ref => (libraryName, ref)) links).
Proof.
  rewrite replaceLinkReferences_unfold. unfold spliceAll, linkIdOf.
  revert bytecode. induction links as [|ref links IH]; intros bytecode; [done|].
  cbn [map foldl]. apply IH.
Qed.

Lemma resolved_spliceAll bytecode (references : LinkReferences) :
  replaceAllLinkReferences bytecode (Some references)
  = Ok ("0x" +:+ spliceAll bytecode (flatSlots references)).
Proof.
  rewrite replaceAllLinkReferences_unfold. do 2 f_equal. unfold flatSlots.
  generalize (concat (map snd references)). intros entries. revert bytecode.
  induction entries as [|[libraryName links] entries IH]; intros bytecode; [done|].
  cbn [foldl flat_map fst snd]. unfold spliceAll in *. rewrite foldl_app.
  rewrite IH. f_equal. apply replaceLinkReferences_spliceAll.
Qed.

(** The two conditions under which a splice is an in-place replacement: the
    library name leaves room for the two leading underscores, so that the
    token has 40 characters, and the slot lies inside a string of [len]
    characters. *)
Definition shortName (slot : string * LinkReference.t) : Prop :=
  String.length slot.1 <= 38.

Definition inRange (len : nat) (slot : string * LinkReference.t) : Prop :=
  slotInside len slot.2.

Definition slotFits (len : nat) (slot : string * LinkReference.t) : Prop :=
  shortName slot /\ inRange len slot.

Lemma slots_fit len (slots : list (string * LinkReference.t)) :
  Forall shortName slots -> Forall (inRange len) slots ->
  Forall (slotFits len) slots.
Proof. intros Hnames Hinside. by apply Forall_and. Qed.

Lemma length_spliceAll bytecode slots :
  Forall (slotFits (String.length bytecode)) slots ->
  String.length (spliceAll bytecode slots) = String.length bytecode.
Proof.
  unfold spliceAll. revert bytecode.
  induction slots as [|[libraryName ref] slots IH]; intros bytecode Hfit; [done|].
  apply Forall_cons in Hfit as [[Hn Hin] Hfit]. unfold shortName, inRange in Hn, Hin.
  cbn [foldl fst snd] in *.
  assert (Hlen := length_spliced bytecode _ ref Hin (length_linkId _ Hn)).
  rewrite IH; [done|]. unfold linkIdOf. by rewrite Hlen.
Qed.

(** Character by character: a position covered by a slot holds the
    character of the token of the last slot that covers it, and a position
    that no slot covers holds the character of the bytecode. *)
Lemma get_spliceAll bytecode slots i :
  Forall (slotFits (String.length bytecode)) slots ->
  String.get i (spliceAll bytecode slots)
  = match lastWith (fun slot => covers i slot.2) slots with
    | Some slot => String.get (i - slotStart slot.2) (linkIdOf slot.1)
    | None => String.get i bytecode
    end.
Proof.
  induction slots as [|[libraryName ref] slots IH] using rev_ind; intros Hfit;
    [done|].
  apply Forall_app in Hfit as [Hfit Hlast]. rewrite Forall_singleton in Hlast.
  destruct Hlast as [Hn Hin]. unfold shortName, inRange in Hn, Hin.
  cbn [fst snd] in Hn, Hin.
  unfold spliceAll. rewrite foldl_app. cbn [foldl fst snd].
  fold (spliceAll bytecode slots). rewrite lastWith_snoc. cbn [fst snd].
  rewrite get_spliced.
  - case_decide; [done|]. by apply IH.
  - by rewrite length_spliceAll.
  - by apply length_linkId.
Qed.

(** X15: the resolved bytecode, character by character. When every library
    name has at most 38 characters and every slot of 40 characters lies
    inside the bytecode, a position covered by a slot holds the character of
    the token of the last slot, in splicing order, that covers it, and every
    other position holds the character of the input bytecode. *)
Theorem resolved_characters bytecode (references : LinkReferences) :
  Forall shortName (flatSlots references) ->
  Forall (inRange (String.length bytecode)) (flatSlots references) ->
  exists unprefixed,
    replaceAllLinkReferences bytecode (Some references) = Ok ("0x" +:+ unprefixed)
    /\ forall i,
         String.get i unprefixed
         = match lastWith (fun slot => covers i slot.2) (flatSlots references) with
           | Some slot => String.get (i - slotStart slot.2) (linkIdOf slot.1)
           | None => String.get i bytecode
           end.
Proof.
  intros Hnames Hinside. pose proof (slots_fit _ _ Hnames Hinside) as Hfit.
  rewrite resolved_spliceAll. eexists. split; [done|].
  intros i. by apply get_spliceAll.
Qed.

(** X16: when every library name has at most 38 characters and every slot
    of 40 characters lies inside the bytecode, resolution leaves a character
    outside the slots as it is in the input. *)
Theorem resolved_untouched_outside bytecode (references : LinkReferences) i :
  Forall shortName (flatSlots references) ->
  Forall (inRange (String.length bytecode)) (flatSlots references) ->
  Forall (fun slot => ~ covers i slot.2) (flatSlots references) ->
  exists unprefixed,
    replaceAllLinkReferences bytecode (Some references) = Ok ("0x" +:+ unprefixed)
    /\ String.get i unprefixed = String.get i bytecode.
Proof.
  intros Hnames Hinside Hout. pose proof (slots_fit _ _ Hnames Hinside) as Hfit.
  rewrite resolved_spliceAll. eexists. split; [done|].
  rewrite get_spliceAll by done.
  by apply (lastWith_None (fun slot => covers i slot.2)) in Hout as ->.
Qed.

(** Slots that overlap are one and the same slot of the same library. *)
Definition slotsAgree (slots : list (string * LinkReference.t)) : Prop :=
  forall i slot1 slot2,
    slot1 ∈ slots -> slot2 ∈ slots ->
    covers i slot1.2 -> covers i slot2.2 -> slot1 = slot2.

Lemma lastWith_agreed slots slot i :
  slotsAgree slots -> slot ∈ slots -> covers i slot.2 ->
  lastWith (fun slot => covers i slot.2) slots = Some slot.
Proof.
  intros Hagree Hin Hcov.
  destruct (lastWith _ slots) as [found|] eqn:Hlast.
  - apply lastWith_Some in Hlast as [Hfound Hcov']. f_equal.
    by apply (Hagree i).
  - apply lastWith_None in Hlast. by eapply Forall_forall in Hlast.
Qed.

(** X17: when every library name has at most 38 characters, every slot of
    40 characters lies inside the bytecode and no two different slots
    overlap, each slot of the resolved bytecode holds the token of its
    library. *)
Theorem resolved_slot_holds_token bytecode (references : LinkReferences)
    libraryName ref :
  Forall shortName (flatSlots references) ->
  Forall (inRange (String.length bytecode)) (flatSlots references) ->
  slotsAgree (flatSlots references) ->
  (libraryName, ref) ∈ flatSlots references ->
  exists unprefixed,
    replaceAllLinkReferences bytecode (Some references) = Ok ("0x" +:+ unprefixed)
    /\ String.substring (slotStart ref) 40 unprefixed = linkIdOf libraryName.
Proof.
  intros Hnames Hinside Hagree Hin.
  pose proof (slots_fit _ _ Hnames Hinside) as Hfit.
  rewrite resolved_spliceAll. eexists. split; [done|].
  assert (String.length libraryName <= 38) as Hn.
  { by eapply Forall_forall in Hnames; [|exact Hin]. }
  apply String.get_correct. intros j.
  destruct (decide (j < 40)) as [Hj|Hj].
  - rewrite String.substring_correct1, get_spliceAll by done.
    rewrite (lastWith_agreed _ (libraryName, ref)); [|done|done|].
    + cbn [fst snd]. f_equal. lia.
    + unfold covers. cbn [snd]. lia.
  - rewrite String.substring_correct2 by lia. symmetry. apply get_beyond.
    unfold linkIdOf. rewrite length_linkId by done. lia.
Qed.

(** X18: the order of splicing does not matter when every library name has
    at most 38 characters, every slot of 40 characters lies inside the
    bytecode and no two different slots overlap: two reference structures
    with the same slots, listed in any order of files, libraries and
    offsets, resolve to the same bytecode. *)
Theorem resolved_order_independent bytecode (references references' : LinkReferences) :
  Forall shortName (flatSlots references) ->
  Forall (inRange (String.length bytecode)) (flatSlots references) ->
  slotsAgree (flatSlots references) ->
  flatSlots references ≡ₚ flatSlots references' ->
  replaceAllLinkReferences bytecode (Some references)
  = replaceAllLinkReferences bytecode (Some references').
Proof.
  intros Hnames Hinside Hagree Hperm.
  pose proof (slots_fit _ _ Hnames Hinside) as Hfit.
  rewrite !resolved_spliceAll. do 2 f_equal.
  assert (Forall (slotFits (String.length bytecode)) (flatSlots references'))
    as Hfit' by (by rewrite <- Hperm).
  apply String.get_correct. intros i. rewrite !get_spliceAll by done.
  destruct (lastWith _ (flatSlots references)) as [slot|] eqn:Hlast.
  - apply lastWith_Some in Hlast as [Hin Hcov].
    rewrite (lastWith_agreed (flatSlots references') slot); [done| |by rewrite <- Hperm|done].
    intros j slot1 slot2 H1 H2. rewrite <- Hperm in H1, H2. by apply Hagree.
  - apply lastWith_None in Hlast. rewrite Hperm in Hlast.
    by apply (lastWith_None (fun slot => covers i slot.2)) in Hlast as ->.
Qed.

End SplicedCharacters.

Section SplicedExamples.
Import Run.

#[global] Instance shortName_dec slot : Decision (shortName slot).
Proof. unfold shortName. apply _. Defined.

#[global] Instance inRange_dec len slot : Decision (inRange len slot).
Proof. unfold inRange. apply _. Defined.

#[global] Instance LinkReference_eq_dec : EqDecision LinkReference.t.
Proof. solve_decision. Defined.

(** A bytecode of 44 bytes with two slots, at byte offsets 1 and 23. *)
Definition twoSlotBytecode : string :=
  "7300000000000000000000000000000000000000006173000000000000000000000000000000000000000000".

Definition mathSlot : LinkReference.t :=
  {| LinkReference.start := 1; LinkReference.length := 20 |}.

Definition stringsSlot : LinkReference.t :=
  {| LinkReference.start := 23; LinkReference.length := 20 |}.

Definition twoLibraries : LinkReferences :=
  [("Token.sol", [("SafeMath", [mathSlot]); ("Strings", [stringsSlot])])].

Definition twoLibrariesSwapped : LinkReferences :=
  [("Util.sol", [("Strings", [stringsSlot])]); ("Token.sol", [("SafeMath", [mathSlot])])].

Lemma twoLibraries_names : Forall shortName (flatSlots twoLibraries).
Proof. apply (bool_decide_unpack _). vm_compute. exact I. Qed.

Lemma twoLibraries_inside :
  Forall (inRange (String.length twoSlotBytecode)) (flatSlots twoLibraries).
Proof. apply (bool_decide_unpack _). vm_compute. exact I. Qed.

Lemma twoLibraries_agree : slotsAgree (flatSlots twoLibraries).
Proof.
  intros i slot1 slot2 H1 H2.
  apply list_elem_of_In in H1, H2. cbn in H1, H2.
  destruct H1 as [<-|[<-|[]]], H2 as [<-|[<-|[]]]; try done;
    unfold covers, slotStart; cbn [snd mathSlot stringsSlot LinkReference.start];
    intros; exfalso; lia.
Qed.

Lemma resolved_characters_witness :
  exists unprefixed,
    replaceAllLinkReferences twoSlotBytecode (Some twoLibraries)
      = Ok ("0x" +:+ unprefixed)
    /\ forall i,
         String.get i unprefixed
         = match lastWith (fun slot => covers i slot.2) (flatSlots twoLibraries) with
           | Some slot => String.get (i - slotStart slot.2) (linkIdOf slot.1)
           | None => String.get i twoSlotBytecode
           end.
Proof. apply (resolved_characters twoSlotBytecode twoLibraries
              twoLibraries_names twoLibraries_inside). Defined.

Lemma resolved_untouched_outside_witness :
  exists unprefixed,
    replaceAllLinkReferences twoSlotBytecode (Some twoLibraries)
      = Ok ("0x" +:+ unprefixed)
    /\ String.get 43 unprefixed = String.get 43 twoSlotBytecode.
Proof.
  apply (resolved_untouched_outside twoSlotBytecode twoLibraries 43
           twoLibraries_names twoLibraries_inside).
  apply (bool_decide_unpack _). vm_compute. exact I.
Defined.

Lemma resolved_slot_holds_token_witness :
  exists unprefixed,
    replaceAllLinkReferences twoSlotBytecode (Some twoLibraries)
      = Ok ("0x" +:+ unprefixed)
    /\ String.substring 46 40 unprefixed = "__Strings_______________________________".
Proof.
  apply (resolved_slot_holds_token twoSlotBytecode twoLibraries "Strings" stringsSlot
           twoLibraries_names twoLibraries_inside twoLibraries_agree).
  apply (bool_decide_unpack _). vm_compute. exact I.
Defined.

Lemma resolved_order_independent_witness :
  replaceAllLinkReferences twoSlotBytecode (Some twoLibraries)
  = replaceAllLinkReferences twoSlotBytecode (Some twoLibrariesSwapped).
Proof.
  apply (resolved_order_independent twoSlotBytecode twoLibraries twoLibrariesSwapped
           twoLibraries_names twoLibraries_inside twoLibraries_agree).
  apply Permutation_swap.
Defined.

End SplicedExamples.

(** * Further properties of the ABI ordering *)

Section SortedInput.
Import Run.
Context {A : Type} (R : relation A) `{forall x y, Decision (R x y)}.

Lemma sortInsert_head x l : HdRel R x l -> sortInsert R x l = x :: l.
Proof. intros [|y l' Hxy]; cbn; [done|]. by rewrite decide_True. Qed.

(** Sorting leaves a sorted list as it is. *)
Lemma sortBy_sorted l : Sorted R l -> sortBy R l = l.
Proof.
  induction 1 as [|x l Hl IH Hhd]; cbn; [done|].
  fold (sortBy R l). rewrite IH. by apply sortInsert_head.
Qed.

End SortedInput.

Lemma filter_nothing {A : Type} (P : A -> Prop) `{forall x, Decision (P x)}
    (l : list A) :
  Forall (fun x => ~ P x) l -> filter P l = [].
Proof.
  induction 1 as [|x l Hx _ IH]; [done|]. by rewrite filter_cons_False.
Qed.

Section AbiCanonicalizerMore.
Import Run.

Implicit Types (names : list (option string)) (k : string) (abi : list AbiEntry).

(** The sorted entries and the entries left aside are the ABI again. *)
Lemma orderABI_reorders abi contractName ast :
  orderABI abi contractName ast ≡ₚ abi.
Proof.
  unfold orderABI. destruct (head _) as [definition|]; [|done].
  destruct (nodes definition) as [members|]; [|done].
  rewrite sortBy_Permutation. apply filter_app_complement.
Qed.

(** X19: reordering neither drops nor duplicates an entry: the result is a
    permutation of the ABI, for every AST. *)
Theorem orderABI_permutation abi contractName ast :
  orderABI abi contractName ast ≡ₚ abi.
Proof. apply orderABI_reorders. Qed.

(** Reordering twice is reordering once, in the model of the sort. *)
Lemma orderABI_twice abi contractName ast :
  orderABI (orderABI abi contractName ast) contractName ast
  = orderABI abi contractName ast.
Proof.
  unfold orderABI. destruct (head _) as [definition|]; [|done].
  destruct (nodes definition) as [members|]; [|done].
  set (functionIndexes := functionIndexesOf _).
  set (absent := fun e : AbiEntry =>
         JsObject.get functionIndexes (JsObject.propertyKey (abiName e)) = None).
  set (front := filter absent abi).
  set (back := sortBy (comesBefore functionIndexes)
                      (filter (fun e => ~ absent e) abi)).
  assert (Forall absent front) as Hfront.
  { apply Forall_forall. intros e He. by apply list_elem_of_filter in He as [? _]. }
  assert (Forall (fun e => ~ absent e) back) as Hback.
  { apply Forall_forall. intros e He. unfold back in He.
    rewrite sortBy_Permutation in He. by apply list_elem_of_filter in He as [? _]. }
  change (filter absent (front ++ back)
          ++ sortBy (comesBefore functionIndexes)
                    (filter (fun e => ~ absent e) (front ++ back))
          = front ++ back).
  rewrite !filter_app.
  rewrite (filter_all absent front Hfront), (filter_nothing absent back Hback).
  rewrite (filter_none absent front Hfront).
  rewrite (filter_all (fun e => ~ absent e) back Hback).
  rewrite app_nil_r. cbn [app]. f_equal.
  apply sortBy_sorted. unfold back. apply Sorted_sortBy. apply _.
Qed.

(** X20: reordering is idempotent. The hypothesis keeps the comparator
    consistent (no entry is named after a property of [Object.prototype]),
    so that the result of the sort is the same on every engine whose sort is
    stable. *)
Theorem orderABI_idempotent abi contractName ast :
  Forall (fun e => entryKey e ∉ JsObject.objectPrototypeKeys) abi ->
  orderABI (orderABI abi contractName ast) contractName ast
  = orderABI abi contractName ast.
Proof. intros _. apply orderABI_twice. Qed.

Lemma orderABI_idempotent_witness :
  let abi := [ {| abiType := "function"; abiName := Some "mint"; abiRest := "()" |};
               transferEvent ] in
  orderABI (orderABI abi "Token" tokenAst) "Token" tokenAst
  = orderABI abi "Token" tokenAst.
Proof.
  apply orderABI_idempotent. apply (bool_decide_unpack _). vm_compute. exact I.
Defined.

(** X21: the map of function indexes sends a name to the index of the last
    function definition of that name, and holds no other key; functions
    that share a name share the index of the last of them. *)
Theorem functionIndexesOf_last names k (i : nat) :
  functionIndexesOf names !! k = Some i
  <-> k <> "__proto__"
      /\ JsObject.propertyKey <$> names !! i = Some k
      /\ forall j, i < j -> JsObject.propertyKey <$> names !! j <> Some k.
Proof.
  revert i. induction names as [|name names IH] using rev_ind; intros i.
  - unfold functionIndexesOf. cbn. rewrite lookup_empty. split; [done|].
    by intros (_ & ? & _).
  - rewrite lookup_functionIndexesOf_snoc.
    destruct (decide (k = "__proto__")) as [Hk|Hk]; [by split; [|intros [? _]]|].
    destruct (decide (k = JsObject.propertyKey name)) as [->|Hne].
    + split.
      * intros [= <-]. split; [done|]. split.
        -- by rewrite lookup_app_r, Nat.sub_diag by lia.
        -- intros j Hj. rewrite lookup_ge_None_2; [done|].
           rewrite length_app. cbn. lia.
      * intros (_ & Hi & Hlast). f_equal.
        destruct (decide (i < List.length names)) as [Hlt|Hge].
        -- exfalso. apply (Hlast (List.length names) Hlt).
           by rewrite lookup_app_r, Nat.sub_diag by lia.
        -- destruct (decide (i = List.length names)) as [->|Hgt]; [done|].
           rewrite lookup_ge_None_2 in Hi; [done|]. rewrite length_app. cbn. lia.
    + rewrite IH. split.
      * intros (_ & Hi & Hlast). split; [done|].
        assert (i < List.length names) as Hlt.
        { apply lookup_lt_is_Some. by destruct (names !! i). }
        split; [by rewrite lookup_app_l|].
        intros j Hj. destruct (decide (j < List.length names)) as [Hjlt|Hjge].
        -- rewrite lookup_app_l by done. by apply Hlast.
        -- destruct (decide (j = List.length names)) as [->|Hjgt].
           ++ rewrite lookup_app_r, Nat.sub_diag by lia. cbn. congruence.
           ++ rewrite lookup_ge_None_2; [done|]. rewrite length_app. cbn. lia.
      * intros (_ & Hi & Hlast). split; [done|].
        assert (i < List.length names) as Hlt.
        { destruct (decide (i < List.length names)) as [?|Hge]; [done|].
          destruct (decide (i = List.length names)) as [->|Hgt].
          - rewrite lookup_app_r, Nat.sub_diag in Hi by lia. cbn in Hi. congruence.
          - rewrite lookup_ge_None_2 in Hi; [done|]. rewrite length_app. cbn. lia. }
        rewrite lookup_app_l in Hi by done. split; [done|].
        intros j Hj. specialize (Hlast j Hj).
        destruct (decide (j < List.length names)) as [Hjlt|Hjge].
        -- by rewrite lookup_app_l in Hlast.
        -- by rewrite lookup_ge_None_2 by lia.
Qed.

(** X22: when the contract definition is found and no entry is named after
    a property of [Object.prototype], the result is the entries whose name
    is absent from the map of function indexes, in their original order,
    followed by the entries whose name is in the map, and these are sorted by
    declaration index. *)
Theorem orderABI_canonical abi contractName ast definition members :
  contractDefinitionOf contractName ast = Some definition ->
  nodes definition = Some members ->
  Forall (fun e => entryKey e ∉ JsObject.objectPrototypeKeys) abi ->
  let functionIndexes := functionIndexesOf (functionNamesOf members) in
  let functions := drop (List.length
                           (filter (fun e => functionIndexes !! entryKey e = None) abi))
                        (orderABI abi contractName ast) in
  take (List.length (filter (fun e => functionIndexes !! entryKey e = None) abi))
       (orderABI abi contractName ast)
    = filter (fun e => functionIndexes !! entryKey e = None) abi
  /\ functions ≡ₚ filter (fun e => functionIndexes !! entryKey e <> None) abi
  /\ Sorted (byDeclarationIndex functionIndexes) functions.
Proof.
  intros Hdef Hnodes Hplain functionIndexes.
  rewrite (orderABI_is_specOrderABI _ _ _ _ _ Hdef Hnodes Hplain).
  unfold specOrderABI. fold functionIndexes. cbn zeta.
  rewrite take_app_length, drop_app_length. split; [done|]. split.
  - apply sortBy_Permutation.
  - apply Sorted_sortBy. apply _.
Qed.

Lemma orderABI_canonical_witness :
  let abi := [ {| abiType := "function"; abiName := Some "mint"; abiRest := "()" |};
               transferEvent ] in
  take 1 (orderABI abi "Token" tokenAst) = [transferEvent]
  /\ drop 1 (orderABI abi "Token" tokenAst)
     ≡ₚ [ {| abiType := "function"; abiName := Some "mint"; abiRest := "()" |} ].
Proof.
  cbn zeta.
  destruct (orderABI_canonical
              [ {| abiType := "function"; abiName := Some "mint"; abiRest := "()" |};
                transferEvent ]
              "Token" tokenAst _ _ eq_refl eq_refl) as (Hfront & Hback & _).
  { apply (bool_decide_unpack _). vm_compute. exact I. }
  split; [exact Hfront|exact Hback].
Defined.

End AbiCanonicalizerMore.

(** * Further properties of the legacy shims *)

Section ShimBytecode.
Import Run.

Implicit Types (bytes name : string) (reference : Z * string * Z).

(** The token of [legacy/shims.js] for a slot of [length] bytes. *)
Definition shimLinkId name (length : Z) : string :=
  JsString.padUnderscores (length * 2)
    ("__" +:+ JsString.slice0 name (length * 2 - 2)).

Lemma length_slice0 name (e : Z) :
  (0 <= e)%Z -> String.length (JsString.slice0 name e) = Nat.min (Z.to_nat e) (String.length name).
Proof.
  intros He. unfold JsString.slice0.
  rewrite (proj2 (Z.ltb_ge e 0)) by done. rewrite length_substring. lia.
Qed.

Lemma length_shimLinkId name (length : Z) :
  (1 <= length)%Z -> String.length (shimLinkId name length) = Z.to_nat (length * 2).
Proof.
  intros Hl. unfold shimLinkId.
  rewrite length_padUnderscores, str_length_app, length_slice0 by lia.
  change (String.length "__") with 2. lia.
Qed.

Lemma slice0_short name (e : Z) :
  (Z.of_nat (String.length name) <= e)%Z -> JsString.slice0 name e = name.
Proof.
  intros He. unfold JsString.slice0.
  rewrite (proj2 (Z.ltb_ge e 0)) by lia.
  rewrite Nat.min_r by lia. apply substring_whole.
Qed.

(** A slot of the shim lies inside a string of [len] characters. *)
Definition shimSlotInside (len : nat) reference : Prop :=
  let '(offset, _, length) := reference in
  (0 <= offset /\ 1 <= length /\ (offset + length) * 2 <= Z.of_nat len)%Z.

Lemma inlineLinkReference_unfold bytes reference :
  LegacyShims.inlineLinkReference (Some bytes) reference
  = Ok (Some (JsString.substring2 bytes 0 (reference.1.1 * 2)
                +:+ shimLinkId reference.1.2 reference.2
                +:+ JsString.substring1 bytes
                      (reference.1.1 * 2 + reference.2 * 2))).
Proof. by destruct reference as [[offset name] length]. Qed.

Lemma length_inlined bytes reference :
  shimSlotInside (String.length bytes) reference ->
  exists bytes',
    LegacyShims.inlineLinkReference (Some bytes) reference = Ok (Some bytes')
    /\ String.length bytes' = String.length bytes.
Proof.
  intros Hin. rewrite inlineLinkReference_unfold. eexists. split; [done|].
  destruct reference as [[offset name] length]. cbn [fst snd].
  destruct Hin as (H0 & H1 & H2).
  rewrite !str_length_app, length_shimLinkId by done.
  unfold JsString.substring2, JsString.substring1, JsString.clamp.
  rewrite !length_substring. lia.
Qed.

Lemma length_reduced bytes (references : list (Z * string * Z)) :
  Forall (shimSlotInside (String.length bytes)) references ->
  exists bytes',
    LegacyShims.reduceM LegacyShims.inlineLinkReference references (Some bytes)
      = Ok (Some bytes')
    /\ String.length bytes' = String.length bytes.
Proof.
  revert bytes. induction references as [|reference references IH];
    intros bytes Hin.
  - by exists bytes.
  - apply Forall_cons in Hin as [Hfirst Hin]. cbn [LegacyShims.reduceM].
    destruct (length_inlined bytes reference Hfirst) as (bytes1 & -> & Hlen).
    cbn [mbind result_bind]. rewrite <- Hlen in Hin.
    destruct (IH bytes1 Hin) as (bytes' & -> & Hlen'). exists bytes'.
    split; [done|]. congruence.
Qed.

(** The link references of a bytecode object, one entry for each offset. *)
Definition flattened (linkReferences : list ShimLinkReference.t)
  : list (Z * string * Z) :=
  concat (map (fun r => map (fun offset => (offset, ShimLinkReference.name r,
                                               ShimLinkReference.length r))
                            (ShimLinkReference.offsets r))
              linkReferences).

Lemma shimBytecode_unfold (bytes : option string)
    (linkReferences : option (list ShimLinkReference.t)) :
  LegacyShims.shimBytecode (BytecodeObject bytes linkReferences)
  = (reduced ← LegacyShims.reduceM LegacyShims.inlineLinkReference
                 (flattened (default [] linkReferences)) bytes;
     Ok (Hex ("0x" +:+ default "undefined" reduced))).
Proof.
  unfold LegacyShims.shimBytecode, flattened. cbn [mbind result_bind].
  by rewrite foldl_app_concat.
Qed.

(** X23: the reducer of [legacy/shims.js] keeps the length of the bytecode
    for library names of any length: when every slot has at least one byte
    and lies inside the bytecode, the result is ["0x"] followed by a string as
    long as [bytes]. *)
Theorem shimBytecode_preserves_length bytes
    (linkReferences : option (list ShimLinkReference.t)) :
  Forall (shimSlotInside (String.length bytes))
         (flattened (default [] linkReferences)) ->
  exists unprefixed,
    LegacyShims.shimBytecode (BytecodeObject (Some bytes) linkReferences)
      = Ok (Hex ("0x" +:+ unprefixed))
    /\ String.length unprefixed = String.length bytes.
Proof.
  intros Hin. rewrite shimBytecode_unfold.
  destruct (length_reduced bytes _ Hin) as (bytes' & -> & Hlen).
  by exists bytes'.
Qed.

Lemma shimBytecode_preserves_length_witness :
  exists unprefixed,
    LegacyShims.shimBytecode
      (BytecodeObject (Some callerBytecode)
         (Some [{| ShimLinkReference.offsets := [1%Z];
                   ShimLinkReference.length := 20;
                   ShimLinkReference.name := longLibraryName |}]))
      = Ok (Hex ("0x" +:+ unprefixed))
    /\ String.length unprefixed = 52.
Proof.
  apply (shimBytecode_preserves_length callerBytecode
           (Some [{| ShimLinkReference.offsets := [1%Z];
                     ShimLinkReference.length := 20;
                     ShimLinkReference.name := longLibraryName |}])).
  repeat constructor; cbn; lia.
Defined.

(** The reference structure of [run.js] that says the same as a list of link
    references of the shim, all of them in one file. *)
Definition asLinkReferences (file : string)
    (linkReferences : list ShimLinkReference.t) : LinkReferences :=
  [(file,
    map (fun r => (ShimLinkReference.name r,
                   map (fun offset => {| LinkReference.start := offset;
                                         LinkReference.length :=
                                           ShimLinkReference.length r |})
                       (ShimLinkReference.offsets r)))
        linkReferences)].

Lemma inline_is_spliced bytes (offset : Z) name :
  String.length name <= 38 ->
  LegacyShims.inlineLinkReference (Some bytes) (offset, name, 20%Z)
  = Ok (Some (spliced bytes (linkIdOf name)
                {| LinkReference.start := offset; LinkReference.length := 20 |})).
Proof.
  intros Hn. rewrite inlineLinkReference_unfold. cbn [fst snd].
  unfold spliced, shimLinkId, linkIdOf. cbn [LinkReference.start].
  change (20 * 2)%Z with 40%Z. change (40 - 2)%Z with 38%Z.
  rewrite slice0_short by lia. done.
Qed.

Lemma reduced_is_spliceAll bytes (linkReferences : list ShimLinkReference.t) file :
  Forall (fun r => ShimLinkReference.length r = 20%Z
                   /\ String.length (ShimLinkReference.name r) <= 38)
         linkReferences ->
  LegacyShims.reduceM LegacyShims.inlineLinkReference (flattened linkReferences)
    (Some bytes)
  = Ok (Some (spliceAll bytes (flatSlots (asLinkReferences file linkReferences)))).
Proof.
  intros Hall. unfold flatSlots, asLinkReferences, flattened.
  cbn [map snd concat]. rewrite app_nil_r. revert bytes.
  induction Hall as [|r linkReferences [Hlen Hname] _ IH]; intros bytes; [done|].
  cbn [map concat flat_map fst snd]. unfold spliceAll in *. rewrite foldl_app.
  destruct r as [offsets length name]. cbn in Hlen, Hname. subst length.
  cbn [ShimLinkReference.offsets ShimLinkReference.name ShimLinkReference.length].
  rewrite map_map. cbn [fst snd].
  revert bytes. induction offsets as [|offset offsets IHo]; intros bytes.
  - cbn. apply IH.
  - cbn [map app LegacyShims.reduceM foldl fst snd].
    rewrite inline_is_spliced by done. cbn [mbind result_bind]. apply IHo.
Qed.

(** X24: on slots of 20 bytes and library names of at most 38 characters,
    the reducer of [legacy/shims.js] and the resolver of [run.js] compute
    the same string. *)
Theorem shimBytecode_agrees_with_resolver bytes
    (linkReferences : list ShimLinkReference.t) file :
  Forall (fun r => ShimLinkReference.length r = 20%Z
                   /\ String.length (ShimLinkReference.name r) <= 38)
         linkReferences ->
  exists resolved,
    replaceAllLinkReferences bytes (Some (asLinkReferences file linkReferences))
      = Ok resolved
    /\ LegacyShims.shimBytecode (BytecodeObject (Some bytes) (Some linkReferences))
       = Ok (Hex resolved).
Proof.
  intros Hall. rewrite resolved_spliceAll, shimBytecode_unfold. cbn [default id].
  rewrite (reduced_is_spliceAll bytes linkReferences file Hall).
  eexists. split; reflexivity.
Qed.

Lemma shimBytecode_agrees_with_resolver_witness :
  exists resolved,
    replaceAllLinkReferences fiftyZeroBytes
      (Some (asLinkReferences "Token.sol"
               [{| ShimLinkReference.offsets := [10%Z; 30%Z];
                   ShimLinkReference.length := 20;
                   ShimLinkReference.name := "MathLib" |}]))
      = Ok resolved
    /\ LegacyShims.shimBytecode
         (BytecodeObject (Some fiftyZeroBytes)
            (Some [{| ShimLinkReference.offsets := [10%Z; 30%Z];
                      ShimLinkReference.length := 20;
                      ShimLinkReference.name := "MathLib" |}]))
       = Ok (Hex resolved).
Proof.
  apply shimBytecode_agrees_with_resolver.
  repeat constructor; cbn; lia.
Defined.

(** X25: without [bytes], the reducer throws as soon as there is one offset
    to inline. *)
Theorem shimBytecode_without_bytes
    (linkReferences : list ShimLinkReference.t) r (offset : Z) :
  r ∈ linkReferences ->
  offset ∈ ShimLinkReference.offsets r ->
  LegacyShims.shimBytecode (BytecodeObject None (Some linkReferences))
  = Throw TypeError.
Proof.
  intros Hr Ho. rewrite shimBytecode_unfold. cbn [default id].
  assert (flattened linkReferences <> []) as Hne.
  { intros Hnil.
    assert ((offset, ShimLinkReference.name r, ShimLinkReference.length r)
            ∈ flattened linkReferences) as Hin.
    { unfold flattened. apply list_elem_of_In, in_concat. eexists. split.
      - apply list_elem_of_In, list_elem_of_fmap. by exists r.
      - apply list_elem_of_In, list_elem_of_fmap. by exists offset. }
    rewrite Hnil in Hin. by apply elem_of_nil in Hin. }
  destruct (flattened linkReferences) as [|[[o n] l] rest]; [done|].
  reflexivity.
Qed.

Lemma shimBytecode_without_bytes_witness :
  LegacyShims.shimBytecode
    (BytecodeObject None
       (Some [{| ShimLinkReference.offsets := [1%Z];
                 ShimLinkReference.length := 20;
                 ShimLinkReference.name := "MathLib" |}]))
  = Throw TypeError.
Proof.
  apply (shimBytecode_without_bytes _
           {| ShimLinkReference.offsets := [1%Z];
              ShimLinkReference.length := 20;
              ShimLinkReference.name := "MathLib" |} 1%Z).
  - by left.
  - by left.
Defined.

End ShimBytecode.

Section ShimContract.

Variable shimBytecode : JsBytecode -> result JsBytecode.

(** X26: whenever [shimContract], called on the exported object, returns a
    legacy artifact, its [unlinked_binary] equals its [bytecode], both being
    the shimmed bytecode of the artifact, its [deployedBytecode] is the
    shimmed deployed bytecode, and its name is the contract name. *)
Theorem shimContract_duplicates_bytecode (contract : Artifact.t)
    (legacy : LegacyArtifact.t) :
  shimContract shimBytecode ModuleExports contract = Ok legacy ->
  LegacyArtifact.unlinked_binary legacy = LegacyArtifact.bytecode legacy
  /\ shimBytecode (Artifact.bytecode contract) = Ok (LegacyArtifact.bytecode legacy)
  /\ shimBytecode (Artifact.deployedBytecode contract)
     = Ok (LegacyArtifact.deployedBytecode legacy)
  /\ LegacyArtifact.contract_name legacy = Artifact.contractName contract.
Proof.
  unfold shimContract. cbn [getShimBytecode callMethod mbind result_bind].
  destruct (shimBytecode (Artifact.bytecode contract)) as [shimmed|e]; [|done].
  destruct (shimBytecode (Artifact.deployedBytecode contract)) as [deployed|e];
    [|done].
  by intros [= <-].
Qed.

(** [shimContract] fails exactly when [shimBytecode] fails on the
    bytecode or on the deployed bytecode, with the exception of the first
    failure. *)
Lemma shimContract_fails_with_shimBytecode (contract : Artifact.t) (e : Exn) :
  shimContract shimBytecode ModuleExports contract = Throw e
  <-> shimBytecode (Artifact.bytecode contract) = Throw e
      \/ ((exists shimmed, shimBytecode (Artifact.bytecode contract) = Ok shimmed)
          /\ shimBytecode (Artifact.deployedBytecode contract) = Throw e).
Proof.
  unfold shimContract. cbn [getShimBytecode callMethod mbind result_bind].
  destruct (shimBytecode (Artifact.bytecode contract)) as [shimmed|e1].
  - destruct (shimBytecode (Artifact.deployedBytecode contract)) as [deployed|e2].
    + split; [done|]. by intros [?|[_ ?]].
    + split.
      * intros [= ->]. right. split; [by eexists|done].
      * by intros [?|[_ [= ->]]].
  - split; [intros [= ->]; by left|]. by intros [[= ->]|[[? ?] _]].
Qed.

End ShimContract.

Section ShimContractExamples.

Lemma shimContract_duplicates_bytecode_witness :
  exists legacy,
    Shims.shimContract ModuleExports fooArtifact = Ok legacy
    /\ LegacyArtifact.unlinked_binary legacy = LegacyArtifact.bytecode legacy.
Proof.
  eexists. split; [reflexivity|].
  eapply (shimContract_duplicates_bytecode Shims.shimBytecode fooArtifact).
  reflexivity.
Defined.

End ShimContractExamples.

(** * Properties of processSources *)

Section ProcessSources.
Import Run.

Lemma length_arraySet {V : Type} (files : list (option V)) index value :
  List.length (arraySet files index value) = Nat.max (List.length files) (S index).
Proof.
  unfold arraySet. case_decide.
  - rewrite length_insert. lia.
  - rewrite !length_app, length_replicate. cbn. lia.
Qed.

(** Reading after a store: the stored value at the index, a hole between
    the old end of the array and the index, and the old array elsewhere. *)
Lemma lookup_arraySet {V : Type} (files : list (option V)) index value i :
  arraySet files index value !! i
  = if decide (i = index) then Some value
    else if decide (i < List.length files) then files !! i
    else if decide (i < index) then Some None
    else None.
Proof.
  unfold arraySet. destruct (decide (index < List.length files)) as [Hin|Hout].
  - destruct (decide (i = index)) as [->|Hne].
    + by apply list_lookup_insert_eq.
    + rewrite list_lookup_insert_ne by done.
      case_decide; [done|]. rewrite lookup_ge_None_2 by lia. by case_decide; [lia|].
  - destruct (decide (i = index)) as [->|Hne].
    + rewrite lookup_app_r by lia. rewrite lookup_app_r; rewrite length_replicate; [|lia].
      by replace (index - List.length files - (index - List.length files)) with 0 by lia.
    + destruct (decide (i < List.length files)) as [Hlt|Hge].
      * by rewrite lookup_app_l.
      * rewrite lookup_app_r by lia. destruct (decide (i < index)) as [Hi|Hi].
        -- rewrite lookup_app_l by (rewrite length_replicate; lia).
           apply lookup_replicate_2. lia.
        -- rewrite lookup_app_r by (rewrite length_replicate; lia).
           rewrite length_replicate. apply lookup_ge_None_2. cbn. lia.
Qed.

(** The array that the loop of [processSources] builds from the entries. *)
Definition filesOf (originalSourcePaths : gmap string string)
    (entries : list (string * Output.SourceOutput))
  : list (option (JsObject.Property string)) :=
  foldl (fun files '(sourcePath, source) =>
           arraySet files (Output.id source)
                    (JsObject.get originalSourcePaths sourcePath))
        [] entries.

(** One more than the largest id, or 0 without sources. *)
Definition idBound (entries : list (string * Output.SourceOutput)) : nat :=
  foldr (fun entry bound => Nat.max (S (Output.id entry.2)) bound) 0 entries.

Lemma idBound_snoc entries entry :
  idBound (entries ++ [entry]) = Nat.max (idBound entries) (S (Output.id entry.2)).
Proof.
  unfold idBound. induction entries as [|e entries IH]; cbn; [lia|].
  fold (idBound (entries ++ [entry])) (idBound entries) in *. rewrite IH. lia.
Qed.

Lemma filesOf_snoc originalSourcePaths entries entry :
  filesOf originalSourcePaths (entries ++ [entry])
  = arraySet (filesOf originalSourcePaths entries) (Output.id entry.2)
             (JsObject.get originalSourcePaths entry.1).
Proof. unfold filesOf. rewrite foldl_app. by destruct entry. Qed.

Lemma length_filesOf originalSourcePaths entries :
  List.length (filesOf originalSourcePaths entries) = idBound entries.
Proof.
  induction entries as [|entry entries IH] using rev_ind; [done|].
  by rewrite filesOf_snoc, idBound_snoc, length_arraySet, IH.
Qed.

Lemma lookup_filesOf originalSourcePaths entries i :
  filesOf originalSourcePaths entries !! i
  = match lastWith (fun entry => Output.id entry.2 = i) entries with
    | Some entry => Some (JsObject.get originalSourcePaths entry.1)
    | None => if decide (i < idBound entries) then Some None else None
    end.
Proof.
  induction entries as [|entry entries IH] using rev_ind; [done|].
  rewrite filesOf_snoc, idBound_snoc, lookup_arraySet, lastWith_snoc.
  rewrite length_filesOf.
  destruct (decide (i = Output.id entry.2)) as [->|Hne].
  - by rewrite decide_True.
  - rewrite (decide_False (P := Output.id entry.2 = i)) by done.
    rewrite IH. destruct (lastWith _ entries) as [found|].
    + (* a found entry has an id below the bound *)
      assert (i < idBound entries) as Hi.
      { rewrite <- (length_filesOf originalSourcePaths). by eapply lookup_lt_Some. }
      by rewrite decide_True.
    + repeat case_decide; try done; lia.
Qed.

(** X27: the list of source indexes. When the compiler output has sources, the
    list is as long as the largest id plus one; the element at an id that
    some source reports is what the reverse map holds for the path of the
    last such source, and the element at an id that no source reports is a
    hole. *)
Theorem processSources_indexes (compilerOutput : Output.t)
    (originalSourcePaths : gmap string string) entries :
  Output.sources compilerOutput = Some entries ->
  exists files,
    processSources compilerOutput originalSourcePaths = Ok files
    /\ List.length files = idBound entries
    /\ forall i,
         files !! i
         = match lastWith (fun entry => Output.id entry.2 = i) entries with
           | Some entry => Some (JsObject.get originalSourcePaths entry.1)
           | None => if decide (i < idBound entries) then Some None else None
           end.
Proof.
  intros Hsources. exists (filesOf originalSourcePaths entries).
  split; [|split].
  - unfold processSources. by rewrite Hsources.
  - apply length_filesOf.
  - apply lookup_filesOf.
Qed.

Lemma get_own {V : Type} (o : gmap string V) k v :
  o !! k = Some v -> JsObject.get o k = Some (JsObject.Own v).
Proof. intros Hk. unfold JsObject.get. by rewrite Hk. Qed.

(** X28: from the raw sources to the source indexes and back. If a raw
    source is the last with its normal form, and the compiler reports an id
    for that normal form which no later source of the output reports, then
    the list of source indexes holds the original path of the raw source at
    that id. *)
Theorem sourceIndexes_original_path before path contents after originalTargets
    (compilerOutput : Output.t) entriesBefore source entriesAfter :
  getPortableSourcePath path <> "__proto__" ->
  Forall (fun entry => getPortableSourcePath entry.1 <> getPortableSourcePath path)
         after ->
  Output.sources compilerOutput
    = Some (entriesBefore ++ (getPortableSourcePath path, source) :: entriesAfter) ->
  Forall (fun entry => Output.id entry.2 <> Output.id source) entriesAfter ->
  exists files,
    processSources compilerOutput
      (originalSourcePaths
         (collectSources (before ++ (path, contents) :: after) originalTargets))
      = Ok files
    /\ files !! Output.id source = Some (Some (JsObject.Own path)).
Proof.
  intros Hproto Hafter Hsources Hids.
  exists (filesOf (originalSourcePaths
                     (collectSources (before ++ (path, contents) :: after)
                                     originalTargets))
                  (entriesBefore ++ (getPortableSourcePath path, source) :: entriesAfter)).
  split.
  - unfold processSources. by rewrite Hsources.
  - rewrite lookup_filesOf.
    rewrite (lastWith_app_cons (fun entry => Output.id entry.2 = Output.id source));
      [|done|].
    + cbn [fst]. f_equal. apply get_own.
      destruct (lookup_collected (before ++ (path, contents) :: after)
                  originalTargets (getPortableSourcePath path)) as [_ ->].
      rewrite decide_False by done. unfold decidingEntry.
      by rewrite lastWith_app_cons.
    + eapply Forall_impl; [exact Hids|]. by intros entry Hne.
Qed.

End ProcessSources.

(** * Properties of processContracts *)

#[global] Instance Exn_eq_dec : EqDecision Exn.
Proof. solve_decision. Defined.

#[global] Instance result_eq_dec {A : Type} `{EqDecision A} : EqDecision (result A).
Proof. solve_decision. Defined.

Section ResultLists.
Import Run.
Context {A B : Type}.

Lemma mapM_Ok (f : A -> result B) (l : list A) (r : list B) :
  mapM f l = Ok r -> Forall2 (fun x y => f x = Ok y) l r.
Proof.
  revert r. induction l as [|x l IH]; intros r; cbn.
  - intros [= <-]. constructor.
  - destruct (f x) as [y|e] eqn:Hx; [|done]. cbn.
    destruct (mapM f l) as [k|e]; [|done]. cbn. intros [= <-].
    constructor; [done|]. by apply IH.
Qed.

Lemma filterM_Ok (test : A -> result bool) (l r : list A) :
  filterM test l = Ok r -> r = filter (fun x => test x = Ok true) l.
Proof.
  revert r. induction l as [|x l IH]; intros r Hr; cbn in Hr.
  - by injection Hr as <-.
  - destruct (test x) as [keep|e] eqn:Hx; [|done]. cbn in Hr.
    destruct (filterM test l) as [rest|e]; [|done]. cbn in Hr. injection Hr as <-.
    rewrite filter_cons, (IH rest eq_refl), Hx.
    destruct keep; by case_decide.
Qed.

Lemma Forall2_filter_related (R : A -> B -> Prop) (P : A -> Prop) (Q : B -> Prop)
    `{forall x, Decision (P x)} `{forall y, Decision (Q y)} (l : list A) (k : list B) :
  (forall x y, R x y -> P x <-> Q y) ->
  Forall2 R l k -> Forall2 R (filter P l) (filter Q k).
Proof.
  intros Hiff. induction 1 as [|x y l k Hxy _ IH]; [constructor|].
  rewrite !filter_cons. pose proof (Hiff x y Hxy).
  destruct (decide (P x)), (decide (Q y)); try tauto. by constructor.
Qed.

Lemma Forall2_compose {C : Type} (R : A -> B -> Prop) (S : B -> C -> Prop)
    (l : list A) (k : list B) (m : list C) :
  Forall2 R l k -> Forall2 S k m ->
  Forall2 (fun x z => exists y, R x y /\ S y z) l m.
Proof.
  intros Hlk. revert m. induction Hlk as [|x y l k Hxy _ IH]; intros m Hkm.
  - inversion Hkm. constructor.
  - inversion Hkm as [|? z ? m' Hyz Hrest]; subst. constructor; [by exists y|].
    by apply IH.
Qed.

End ResultLists.

Section ProcessContracts.
Import Run.

(** The contracts of the compiler output, each with the path of its
    source and its name, in the order of the output. *)
Definition flatContracts
    (entries : list (string * list (string * Output.ContractOutput)))
  : list (string * string * Output.ContractOutput) :=
  concat (map (fun '(sourcePath, sourceContracts) =>
                 map (fun '(contractName, contract) =>
                        (sourcePath, contractName, contract))
                     (sourceContracts : list (string * Output.ContractOutput)))
              entries).

(** A contract as the first stage hands it on. *)
Definition handedOn (sources : gmap string string)
    (c : string * string * Output.ContractOutput)
    (e : string * Output.ContractOutput * ContractSource) : Prop :=
  e.1.1 = c.1.2 /\ e.1.2 = c.2
  /\ sourceSourcePath e.2 = c.1.1
  /\ sourceContents e.2 = JsObject.get sources c.1.1.

Lemma sourceOf_Ok compilerOutput sources sourcePath source :
  sourceOf compilerOutput sources sourcePath = Ok source ->
  sourceSourcePath source = sourcePath
  /\ sourceContents source = JsObject.get sources sourcePath.
Proof.
  unfold sourceOf. destruct (objectEntries _) as [entries|e]; [|done]. cbn.
  destruct (getEntry entries sourcePath); [|done]. by intros [= <-].
Qed.

Lemma first_stage_Ok compilerOutput sources entries nested :
  mapM (fun '(sourcePath, sourceContracts) =>
          mapM (fun '(contractName, contract) =>
                  source ← sourceOf compilerOutput sources sourcePath;
                  Ok (contractName, contract, source))
               (sourceContracts : list (string * Output.ContractOutput)))
       entries = Ok nested ->
  Forall2 (handedOn sources) (flatContracts entries) (concat nested).
Proof.
  intros Hmap. apply mapM_Ok in Hmap. unfold flatContracts.
  induction Hmap as [|[sourcePath sourceContracts] handed entries nested Hinner _ IH];
    [constructor|].
  cbn [map concat]. apply Forall2_app; [|exact IH].
  apply mapM_Ok in Hinner. clear -Hinner.
  induction Hinner as [|[contractName contract] e sourceContracts handed He _ IH];
    [constructor|].
  cbn [map]. constructor; [|exact IH].
  destruct (sourceOf compilerOutput sources sourcePath) as [source|?] eqn:Hsource;
    [|done].
  cbn in He. injection He as <-.
  destruct (sourceOf_Ok _ _ _ _ Hsource) as [Hpath Hcontents].
  by repeat split.
Qed.

Lemma resolved_prefix bytecode linkReferences resolved :
  replaceAllLinkReferences bytecode linkReferences = Ok resolved ->
  exists unprefixed, resolved = "0x" +:+ unprefixed.
Proof.
  destruct linkReferences as [references|]; [|done].
  rewrite replaceAllLinkReferences_unfold. intros [= <-]. by eexists.
Qed.

(** What an artifact says about the contract it was made from. *)
Definition artifactOf (sources originalSourcePaths : gmap string string)
    (solcVersion : string) (c : string * string * Output.ContractOutput)
    (artifact : ContractArtifact.t) : Prop :=
  ContractArtifact.contractName artifact = c.1.2
  /\ ContractArtifact.abi artifact ≡ₚ Output.abi c.2
  /\ (exists unprefixed, ContractArtifact.bytecode artifact = "0x" +:+ unprefixed)
  /\ (exists unprefixed,
        ContractArtifact.deployedBytecode artifact = "0x" +:+ unprefixed)
  /\ ContractArtifact.sourcePath artifact = JsObject.get originalSourcePaths c.1.1
  /\ ContractArtifact.source artifact = JsObject.get sources c.1.1
  /\ ContractArtifact.metadata artifact = Output.metadata c.2
  /\ ContractArtifact.compilerName artifact = "solc"
  /\ ContractArtifact.compilerVersion artifact = solcVersion.

Lemma toArtifact_Ok sources originalSourcePaths solcVersion c e artifact :
  handedOn sources c e ->
  toArtifact originalSourcePaths solcVersion e = Ok artifact ->
  artifactOf sources originalSourcePaths solcVersion c artifact.
Proof.
  destruct e as [[contractName contract] source].
  intros (Hname & Hcontract & Hpath & Hcontents). cbn in Hname, Hcontract, Hpath, Hcontents.
  unfold toArtifact.
  destruct (Output.evm contract) as [evm|]; [|done]. cbn.
  destruct (Output.bytecode evm) as [creation|]; [|done]. cbn.
  destruct (Output.deployedBytecode evm) as [deployed|]; [|done]. cbn.
  destruct (sourceAst source) as [ast|]; [|done]. cbn.
  destruct (replaceAllLinkReferences (Output.object creation) _) as [resolved|?]
    eqn:Hresolved; [|done]. cbn.
  destruct (replaceAllLinkReferences (Output.object deployed) _) as [deployedResolved|?]
    eqn:Hdeployed; [|done]. cbn.
  intros [= <-]. unfold artifactOf. cbn. subst.
  split; [done|]. split; [apply orderABI_reorders|].
  split; [by eapply resolved_prefix|]. split; [by eapply resolved_prefix|].
  by rewrite Hpath.
Qed.

Lemma processContracts_Ok (compilerOutput : Output.t)
    (sources originalSourcePaths : gmap string string) (solcVersion : string)
    (artifacts : list ContractArtifact.t) :
  processContracts compilerOutput sources originalSourcePaths solcVersion
    = Ok artifacts ->
  exists entries,
    Output.contracts compilerOutput = Some entries
    /\ Forall2 (artifactOf sources originalSourcePaths solcVersion)
               (filter (fun c => hasEvmOutput c.2 = Ok true) (flatContracts entries))
               artifacts.
Proof.
  unfold processContracts.
  destruct (Output.contracts compilerOutput) as [entries|]; [|done].
  cbn [objectEntries mbind result_bind].
  destruct (mapM _ entries) as [nested|?] eqn:Hfirst; [|done].
  cbn [mbind result_bind]. rewrite foldl_app_concat. cbn [app].
  destruct (filterM _ (concat nested)) as [compiled|?] eqn:Hfilter; [|done].
  cbn [mbind result_bind]. intros Hlast.
  exists entries. split; [done|].
  apply first_stage_Ok in Hfirst. apply filterM_Ok in Hfilter. apply mapM_Ok in Hlast.
  subst compiled.
  assert (Forall2 (handedOn sources)
            (filter (fun c => hasEvmOutput c.2 = Ok true) (flatContracts entries))
            (filter (fun e : string * Output.ContractOutput * ContractSource =>
                       hasEvmOutput e.1.2 = Ok true) (concat nested))) as Hkept.
  { apply Forall2_filter_related; [|done].
    intros c e (_ & Hcontract & _). by rewrite Hcontract. }
  eapply Forall2_impl; [exact (Forall2_compose _ _ _ _ _ Hkept Hlast)|].
  intros c artifact (e & Hhanded & Hartifact). by eapply toArtifact_Ok.
Qed.

(** X29: the artifacts of a successful [processContracts]: one for each
    contract of the output whose [evm] object has a key, in the order of the
    output, and none for a contract whose [evm] object is empty. Each carries
    the name of its contract, the ABI of the contract up to the order of the
    entries, two bytecodes that start with ["0x"], what the reverse map and
    the sources hold for the path of the contract, and the version of the
    compiler. *)
Theorem processContracts_artifacts (compilerOutput : Output.t)
    (sources originalSourcePaths : gmap string string) (solcVersion : string)
    (artifacts : list ContractArtifact.t) :
  processContracts compilerOutput sources originalSourcePaths solcVersion
    = Ok artifacts ->
  exists entries,
    Output.contracts compilerOutput = Some entries
    /\ Forall2 (artifactOf sources originalSourcePaths solcVersion)
               (filter (fun c => hasEvmOutput c.2 = Ok true) (flatContracts entries))
               artifacts.
Proof. apply processContracts_Ok. Qed.

End ProcessContracts.

(** * Properties of run *)

Section RunProperties.
Import Run.

Variable EOL : string.
Variable invokeCompiler : CompilerInput -> RunOptions -> result (Output.t * string).

(** What [run] never returns: an artifact of another compiler version, or
    one whose original path is not a path of the raw sources. *)
Definition fromRawSources (rawSources : list (string * string)) (solcVersion : string)
    (artifact : ContractArtifact.t) : Prop :=
  ContractArtifact.compilerVersion artifact = solcVersion
  /\ forall original,
       ContractArtifact.sourcePath artifact = Some (JsObject.Own original) ->
       exists contents,
         (original, contents) ∈ rawSources
         /\ ContractArtifact.source artifact = Some (JsObject.Own contents).

(** X30: a run over sources that returns. The compiler was invoked on the
    input built from the raw sources and returned an output and a version;
    the joined messages of the diagnostics that count as errors are empty;
    the compiler reported is solc at that version; and every artifact has
    that version and, when it names an original path, that path is the path
    of a raw source and the artifact holds the contents given for it. *)
Theorem run_returns (rawSources : list (string * string)) (options : RunOptions)
    (logged : list string) (r : RunResult) :
  rawSources <> [] ->
  run EOL invokeCompiler rawSources options = (logged, Ok r) ->
  exists compilerOutput solcVersion,
    invokeCompiler (compilerInputOf rawSources (compilationTargets options)
                                    (solcSettings options)) options
      = Ok (compilerOutput, solcVersion)
    /\ joinedErrors (default [] (Output.errors compilerOutput))
                    (gateOptions options) = ""
    /\ resultCompilerInfo r = Some ("solc", solcVersion)
    /\ Forall (fromRawSources rawSources solcVersion) (resultContracts r).
Proof.
  intros Hsources. unfold run.
  destruct (decide (List.length rawSources = 0)) as [Hempty|_].
  { by destruct rawSources. }
  cbn zeta. fold (compilerInputOf rawSources (compilationTargets options)
                                  (solcSettings options)).
  destruct (invokeCompiler _ options) as [[compilerOutput solcVersion]|e];
    [|by intros [= _ ?]].
  pose proof (runDiagnostics_passes_iff EOL (Output.errors compilerOutput)
                (gateOptions options)) as Hgate.
  destruct (runDiagnostics EOL _ _) as [logged' [[]|e]]; [|by intros [= _ ?]].
  cbn [snd] in Hgate.
  destruct (processSources _ _) as [sourceIndexes|e]; [|by intros [= _ ?]].
  cbn [mbind result_bind].
  destruct (processContracts _ _ _ _) as [contracts|e] eqn:Hcontracts;
    [|by intros [= _ ?]].
  cbn [mbind result_bind]. intros [= _ <-]. cbn [resultCompilerInfo resultContracts].
  exists compilerOutput, solcVersion.
  split; [done|]. split; [by apply Hgate|]. split; [done|].
  apply processContracts_Ok in Hcontracts as (entries & _ & Hartifacts).
  induction Hartifacts as [|c artifact kept contracts Hartifact _ IH];
    constructor; [|exact IH].
  destruct Hartifact as (_ & _ & _ & _ & Hpath & Hsource & _ & _ & Hversion).
  split; [done|]. intros original Horiginal.
  rewrite Horiginal in Hpath. symmetry in Hpath.
  destruct (lookup_collected rawSources (compilationTargets options) c.1.1)
    as [Hcontents Hreverse].
  cbn zeta in Hcontents, Hreverse.
  unfold JsObject.get in Hpath. rewrite Hreverse in Hpath.
  destruct (decide (c.1.1 = "__proto__")) as [|Hproto].
  { by destruct (decide (c.1.1 ∈ JsObject.objectPrototypeKeys)). }
  destruct (decidingEntry c.1.1 rawSources) as [[path contents]|] eqn:Hlast.
  - cbn in Hpath. injection Hpath as ->.
    apply lastWith_Some in Hlast as [Hin _].
    exists contents. split; [done|].
    rewrite Hsource. by apply get_own.
  - cbn in Hpath. by destruct (decide (c.1.1 ∈ JsObject.objectPrototypeKeys)).
Qed.

End RunProperties.

(** * A compilation from the raw sources to the artifacts *)

Section PipelineExamples.
Import Run.

Definition tokenBytecode : Output.EvmBytecode :=
  {| Output.sourceMap := "0:10:0";
     Output.linkReferences := Some [];
     Output.object := "6080" |}.

(** A contract with bytecode, and an interface, whose [evm] object is
    empty. *)
Definition tokenContract : Output.ContractOutput :=
  {| Output.abi := [transferEvent];
     Output.metadata := "{}";
     Output.devdoc := "{}";
     Output.userdoc := "{}";
     Output.evm := Some {| Output.bytecode := Some tokenBytecode;
                           Output.deployedBytecode := Some tokenBytecode;
                           Output.otherKeys := 0 |} |}.

Definition tokenInterface : Output.ContractOutput :=
  {| Output.abi := [];
     Output.metadata := "";
     Output.devdoc := "{}";
     Output.userdoc := "{}";
     Output.evm := Some {| Output.bytecode := None;
                           Output.deployedBytecode := None;
                           Output.otherKeys := 0 |} |}.

Definition tokenSource : Output.SourceOutput :=
  {| Output.id := 0; Output.ast := Some tokenAst; Output.legacyAST := "{}" |}.

Definition tokenOutput : Output.t :=
  {| Output.sources := Some [("/C/a/Token.sol", tokenSource)];
     Output.contracts :=
       Some [("/C/a/Token.sol", [("IToken", tokenInterface); ("Token", tokenContract)])];
     Output.errors := Some [unusedVariableWarning] |}.

Definition rawTokenSources : list (string * string) :=
  [("C:\a\Token.sol", "contract Token {}")].

Definition tokenOptions : RunOptions :=
  {| gateOptions := {| strict := false; quiet := false; solcVersion := None |};
     compilationTargets := None;
     solcSettings := {| evmVersion := "byzantium"; optimizer := "{}" |} |}.

Definition tokenCompiler : CompilerInput -> RunOptions -> result (Output.t * string) :=
  fun _ _ => Ok (tokenOutput, "0.5.16").

Definition tokenArtifact : ContractArtifact.t :=
  {| ContractArtifact.contractName := "Token";
     ContractArtifact.abi := [transferEvent];
     ContractArtifact.metadata := "{}";
     ContractArtifact.devdoc := "{}";
     ContractArtifact.userdoc := "{}";
     ContractArtifact.sourcePath := Some (JsObject.Own "C:\a\Token.sol");
     ContractArtifact.source := Some (JsObject.Own "contract Token {}");
     ContractArtifact.sourceMap := "0:10:0";
     ContractArtifact.deployedSourceMap := "0:10:0";
     ContractArtifact.ast := tokenAst;
     ContractArtifact.legacyAST := Some "{}";
     ContractArtifact.bytecode := "0x6080";
     ContractArtifact.deployedBytecode := "0x6080";
     ContractArtifact.compilerName := "solc";
     ContractArtifact.compilerVersion := "0.5.16" |}.

Definition tokenResult : RunResult :=
  {| resultContracts := [tokenArtifact];
     resultSourceIndexes := [Some (JsObject.Own "C:\a\Token.sol")];
     resultCompilerInfo := Some ("solc", "0.5.16") |}.

Definition tokenCollected : Collected := collectSources rawTokenSources None.

Lemma processSources_indexes_witness :
  exists files,
    processSources tokenOutput (originalSourcePaths tokenCollected) = Ok files
    /\ List.length files = 1
    /\ files !! 0 = Some (Some (JsObject.Own "C:\a\Token.sol"))
    /\ files !! 1 = None.
Proof.
  destruct (processSources_indexes tokenOutput (originalSourcePaths tokenCollected)
              [("/C/a/Token.sol", tokenSource)] eq_refl)
    as (files & Hfiles & Hlength & Hlookup).
  exists files. split; [exact Hfiles|]. split; [exact Hlength|].
  split; rewrite Hlookup; vm_compute; reflexivity.
Defined.

Lemma sourceIndexes_original_path_witness :
  exists files,
    processSources tokenOutput (originalSourcePaths tokenCollected) = Ok files
    /\ files !! 0 = Some (Some (JsObject.Own "C:\a\Token.sol")).
Proof.
  apply (sourceIndexes_original_path [] "C:\a\Token.sol" "contract Token {}" [] None
           tokenOutput [] tokenSource []).
  - vm_compute. discriminate.
  - constructor.
  - vm_compute. reflexivity.
  - constructor.
Defined.

Lemma processContracts_artifacts_witness :
  exists entries,
    Output.contracts tokenOutput = Some entries
    /\ Forall2 (artifactOf (sources tokenCollected)
                           (originalSourcePaths tokenCollected) "0.5.16")
               (filter (fun c => hasEvmOutput c.2 = Ok true) (flatContracts entries))
               [tokenArtifact].
Proof.
  apply (processContracts_artifacts tokenOutput (sources tokenCollected)
           (originalSourcePaths tokenCollected) "0.5.16" [tokenArtifact]).
  vm_compute. reflexivity.
Defined.

Lemma run_returns_witness :
  exists compilerOutput solcVersion,
    tokenCompiler (compilerInputOf rawTokenSources None (solcSettings tokenOptions))
                  tokenOptions
      = Ok (compilerOutput, solcVersion)
    /\ joinedErrors (default [] (Output.errors compilerOutput))
                    (gateOptions tokenOptions) = ""
    /\ resultCompilerInfo tokenResult = Some ("solc", solcVersion)
    /\ Forall (fromRawSources rawTokenSources solcVersion)
              (resultContracts tokenResult).
Proof.
  apply (run_returns posixEOL tokenCompiler rawTokenSources tokenOptions
           ["
    > compilation warnings encountered:
";
            "Token.sol:7:5: Warning: Unused local variable."]
           tokenResult).
  - discriminate.
  - vm_compute. reflexivity.
Defined.

End PipelineExamples.
